(** * micro_router: segment-based HTTP routing

    A shallow embedding of [include/micro_router/micro_router.hpp] and the
    properties of its tokenizer, pattern compiler, matcher and dispatcher.

    Modelling choices:
    - [std::string] and [std::string_view] are [string]; the members of
      [std::string_view] the header uses live in [Module string_view];
    - [Params] ([std::unordered_map<std::string, std::string>]) is a
      [gmap string string]; [emplace] keeps an existing binding, as the
      standard container does;
    - [std::vector] is [list]; [push_back] appends at the end;
    - a [Handler] ([void(const Request &, Response &)]) is a function from
      the request and the response to the new response: it stands for a
      non-empty callable that returns normally. A call that throws (an empty
      [std::function] included) leaves [dispatch] by the exception, after
      [req.params] was overwritten; that path is outside the model, and no
      property below depends on what a handler call does;
    - [while] loops whose argument does not shrink structurally take a fuel
      argument, started at a value shown to be large enough. *)

From Stdlib Require Import Ascii String ZArith Lia.
From stdpp Require Import base option list gmap strings fin_maps.

Local Open Scope string_scope.
Local Open Scope list_scope.
Local Open Scope nat_scope.

(** ** [std::string_view] members used by the header *)

Module string_view.

Definition empty (s : string) : bool :=
  match s with
  | EmptyString => true
  | String _ _ => false
  end.

Definition size (s : string) : nat := String.length s.

(** [front] and [back] are only called on non-empty views; on the empty
    view (undefined in C++) the model returns the NUL character. *)
Definition front (s : string) : ascii :=
  match s with
  | EmptyString => Ascii.zero
  | String c _ => c
  end.

Fixpoint back (s : string) : ascii :=
  match s with
  | EmptyString => Ascii.zero
  | String c EmptyString => c
  | String _ r => back r
  end.

Fixpoint remove_prefix (n : nat) (s : string) : string :=
  match n, s with
  | O, _ => s
  | S _, EmptyString => EmptyString
  | S n', String _ r => remove_prefix n' r
  end.

(** [substr pos count]: [count] is clamped to the end of the view. *)
Definition substr (s : string) (pos count : nat) : string :=
  String.substring pos count s.

(** [substr pos] with the default [count = npos]. *)
Definition substr_from (s : string) (pos : nat) : string :=
  remove_prefix pos s.

Definition remove_suffix (n : nat) (s : string) : string :=
  substr s 0 (size s - n).

(** [find c pos]: index of the first [c] at or after [pos]; [None] is
    [npos]. *)
Fixpoint find (c : ascii) (s : string) (pos : nat) : option nat :=
  match s with
  | EmptyString => None
  | String a r =>
      match pos with
      | O => if Ascii.eqb a c then Some O else S <$> find c r O
      | S pos' => S <$> find c r pos'
      end
  end.

End string_view.

(** ** Data model *)

Inductive Method : Set :=
  | Any | Get | Post | Put | Patch | Delete_ | Head | Options.

#[global] Instance Method_eq_dec : EqDecision Method.
Proof. solve_decision. Defined.

Definition Method_eqb (a b : Method) : bool := bool_decide (a = b).

(** [Params::emplace]: inserts only when the key is not bound yet. *)
Definition emplace (k v : string) (m : gmap string string) : gmap string string :=
  match m !! k with
  | Some _ => m
  | None => <[k:=v]> m
  end.

Record Request : Type := mkRequest {
  req_method : Method;
  req_path : string;
  req_params : gmap string string
}.

Record Response : Type := mkResponse {
  status : Z;
  body : string
}.

Definition Handler : Type := Request -> Response -> Response.

Record Match : Type := mkMatch {
  m_handler : Handler;
  m_params : gmap string string
}.

(** ** [namespace detail] *)

Module detail.
Import string_view.

Inductive Kind : Set := Static | Param.

Record Segment : Set := mkSegment {
  kind : Kind;
  text : string
}.

Definition is_slash (c : ascii) : bool := Ascii.eqb c "/".

Definition strip_query (p : string) : string :=
  match find "?" p 0 with
  | None => p
  | Some q => substr p 0 q
  end.

(** First loop of [trim_slashes]. *)
Fixpoint trim_leading (p : string) : string :=
  match p with
  | EmptyString => p
  | String c r => if is_slash c then trim_leading r else p
  end.

(** Second loop of [trim_slashes]; one unit of fuel per iteration. *)
Fixpoint trim_trailing (fuel : nat) (p : string) : string :=
  match fuel with
  | O => p
  | S fuel' =>
      if negb (empty p) && is_slash (back p)
      then trim_trailing fuel' (remove_suffix 1 p)
      else p
  end.

Definition trim_slashes (p : string) : string :=
  let p := trim_leading p in
  trim_trailing (size p) p.

(** The [while (i < path.size())] loop of [split_segments]. *)
Fixpoint split_loop (fuel : nat) (path : string) (i : nat)
    (out : list string) : list string :=
  match fuel with
  | O => out
  | S fuel' =>
      if i <? size path then
        match find "/" path i with
        | None => out ++ [substr_from path i]
        | Some j => split_loop fuel' path (j + 1) (out ++ [substr path i (j - i)])
        end
      else out
  end.

Definition split_segments (path : string) : list string :=
  let path := strip_query path in
  let path := trim_slashes path in
  if empty path then []
  else split_loop (size path) path 0 [].

Definition is_braced_param (s : string) : bool :=
  (3 <=? size s) && Ascii.eqb (front s) "{" && Ascii.eqb (back s) "}".

Definition unbrace (s : string) : string :=
  substr s 1 (size s - 2).

(** Body of the [for] loop of [parse_pattern]: the segment pushed for one
    part. *)
Definition parse_part (part : string) : Segment :=
  if negb (empty part) && Ascii.eqb (front part) ":" && (1 <? size part)
  then mkSegment Param (substr_from part 1)
  else if is_braced_param part && negb (empty (unbrace part))
  then mkSegment Param (unbrace part)
  else mkSegment Static part.

Fixpoint parse_parts (parts : list string) (segs : list Segment) : list Segment :=
  match parts with
  | [] => segs
  | part :: rest => parse_parts rest (segs ++ [parse_part part])
  end.

Definition parse_pattern (pattern : string) : list Segment :=
  parse_parts (split_segments pattern) [].

Definition method_matches (route_method req_method : Method) : bool :=
  if Method_eqb route_method Any then true
  else Method_eqb route_method req_method.

End detail.

(** ** [class Router] *)

Record Route : Type := mkRoute {
  route_method : Method;
  pattern : string;
  segments : list detail.Segment;
  route_handler : Handler
}.

Record Router : Type := mkRouter {
  routes_ : list Route
}.

Definition Router_new : Router := mkRouter [].

Definition add (rt : Router) (method : Method) (pat : string) (h : Handler) : Router :=
  mkRouter (routes_ rt ++ [mkRoute method pat (detail.parse_pattern pat) h]).

Definition any (rt : Router) (pat : string) (h : Handler) : Router := add rt Any pat h.
Definition get (rt : Router) (pat : string) (h : Handler) : Router := add rt Get pat h.
Definition post (rt : Router) (pat : string) (h : Handler) : Router := add rt Post pat h.
Definition put (rt : Router) (pat : string) (h : Handler) : Router := add rt Put pat h.
Definition patch (rt : Router) (pat : string) (h : Handler) : Router := add rt Patch pat h.
Definition del (rt : Router) (pat : string) (h : Handler) : Router := add rt Delete_ pat h.
Definition head (rt : Router) (pat : string) (h : Handler) : Router := add rt Head pat h.
Definition options (rt : Router) (pat : string) (h : Handler) : Router := add rt Options pat h.

(** The inner [for] loop of [Router::match]. [None] is [ok == false]. The
    loop is entered only after the size check, so both sequences have the
    same length and [parts[i]] is always in range. *)
Fixpoint match_segments (segs : list detail.Segment) (parts : list string)
    (params : gmap string string) : option (gmap string string) :=
  match segs, parts with
  | [], _ => Some params
  | seg :: segs', value :: parts' =>
      match detail.kind seg with
      | detail.Static =>
          if negb (String.eqb value (detail.text seg)) then None
          else match_segments segs' parts' params
      | detail.Param =>
          match_segments segs' parts' (emplace (detail.text seg) value params)
      end
  | _ :: _, [] => None
  end.

(** Body of the outer loop of [Router::match] for one route: [None] is
    [continue], [Some params] is the route being returned. *)
Definition try_route (r : Route) (method : Method) (parts : list string)
    : option (gmap string string) :=
  if negb (detail.method_matches (route_method r) method) then None
  else if negb (length (segments r) =? length parts) then None
  else match_segments (segments r) parts ∅.

Fixpoint match_routes (routes : list Route) (method : Method)
    (parts : list string) : option Match :=
  match routes with
  | [] => None
  | r :: rest =>
      match try_route r method parts with
      | Some params => Some (mkMatch (route_handler r) params)
      | None => match_routes rest method parts
      end
  end.

Definition match_ (rt : Router) (method : Method) (path : string) : option Match :=
  let parts := detail.split_segments path in
  match_routes (routes_ rt) method parts.

(** [dispatch] returns its boolean together with the request and the
    response as they are after the call. The match branch is the one of a
    handler call that returns normally (see the modelling choices above). *)
Definition dispatch (rt : Router) (req : Request) (res : Response)
    : bool * Request * Response :=
  match match_ rt (req_method req) (req_path req) with
  | None => (false, req, res)
  | Some m =>
      let req' := mkRequest (req_method req) (req_path req) (m_params m) in
      (true, req', m_handler m req' res)
  end.

Definition size (rt : Router) : nat := length (routes_ rt).

(** ** Statement vocabulary taken from the specification *)

(** A run of [n] slash characters. *)
Fixpoint slashes (n : nat) : string :=
  match n with
  | O => EmptyString
  | S n' => String "/" (slashes n')
  end.

(** Spec 4.1, step 5: how one token of a pattern is classified. *)
Inductive classified : string -> detail.Segment -> Prop :=
  | classified_colon name :
      2 <= String.length (":" +:+ name) ->
      classified (":" +:+ name) (detail.mkSegment detail.Param name)
  | classified_braces name :
      name <> "" ->
      classified ("{" +:+ name +:+ "}") (detail.mkSegment detail.Param name)
  | classified_empty_braces :
      classified "{}" (detail.mkSegment detail.Static "{}")
  | classified_literal tok :
      (forall name, 2 <= String.length tok -> tok <> ":" +:+ name) ->
      (forall name, name <> "" -> tok <> "{" +:+ name +:+ "}") ->
      classified tok (detail.mkSegment detail.Static tok).

(** Spec 4.2, step 2a: the method check in the spec's words. *)
Definition method_compatible (route_m req_m : Method) : Prop :=
  route_m = Any \/ route_m = req_m.

(** Spec 4.2, step 2c: a route segment accepts a path part. *)
Definition segment_accepts (seg : detail.Segment) (value : string) : Prop :=
  match detail.kind seg with
  | detail.Static => value = detail.text seg
  | detail.Param => True
  end.

(** Spec 4.2, steps 2a-2c: a route structurally matches a request. *)
Definition structurally_matches (r : Route) (method : Method)
    (parts : list string) : Prop :=
  method_compatible (route_method r) method /\
  length (segments r) = length parts /\
  Forall2 segment_accepts (segments r) parts.

(** [name] is declared by the Param segment at position [i] and by no
    Param segment before it. *)
Definition first_occurrence (name : string) (segs : list detail.Segment)
    (i : nat) : Prop :=
  segs !! i = Some (detail.mkSegment detail.Param name) /\
  forall j, j < i -> segs !! j <> Some (detail.mkSegment detail.Param name).

(** [name] is declared by the Param segment at position [i] and by no
    Param segment after it. *)
Definition last_occurrence (name : string) (segs : list detail.Segment)
    (i : nat) : Prop :=
  segs !! i = Some (detail.mkSegment detail.Param name) /\
  forall j, i < j -> segs !! j <> Some (detail.mkSegment detail.Param name).

(** The trailing loop of [trim_slashes], written by recursion on the view:
    what [detail.trim_trailing] computes once it has fuel for every
    character. *)
Fixpoint rtrim (p : string) : string :=
  match p with
  | EmptyString => EmptyString
  | String c r =>
      match rtrim r with
      | EmptyString =>
          if detail.is_slash c then EmptyString else String c EmptyString
      | String _ _ as r' => String c r'
      end
  end.

(** The part standing at the first Param segment named [name]. *)
Fixpoint first_capture (name : string) (segs : list detail.Segment)
    (parts : list string) : option string :=
  match segs, parts with
  | seg :: segs', value :: parts' =>
      match detail.kind seg with
      | detail.Param =>
          if decide (detail.text seg = name) then Some value
          else first_capture name segs' parts'
      | detail.Static => first_capture name segs' parts'
      end
  | _, _ => None
  end.

(** A handler that leaves the response as it is, for concrete tables. *)
Definition keep_response : Handler := fun _ res => res.

(** Parts put back together, one slash between neighbours. *)
Fixpoint join (parts : list string) : string :=
  match parts with
  | [] => EmptyString
  | t :: rest =>
      match rest with
      | [] => t
      | _ :: _ => t +:+ String "/" (join rest)
      end
  end.

(** The routers client code can hold: [routes_] is private, so a router is
    the default-constructed one after some calls of [add]. *)
Inductive built : Router -> Prop :=
  | built_new : built Router_new
  | built_add rt method pat h : built rt -> built (add rt method pat h).

(** The route [add] appends for a registration. *)
Definition compiled_route (method : Method) (pat : string) (h : Handler) : Route :=
  mkRoute method pat (detail.parse_pattern pat) h.

(** * Properties *)

(** ** Strings *)

Section string_facts.
Import string_view.

Lemma append_cons a s t : String a s +:+ t = String a (s +:+ t).
Proof. reflexivity. Qed.

Lemma append_nil t : "" +:+ t = t.
Proof. reflexivity. Qed.

Lemma find_bounds c s pos j :
  find c s pos = Some j -> pos <= j < size s.
Proof.
  unfold size. revert pos j.
  induction s as [|a r IH]; intros pos j; simpl; [done|].
  destruct pos as [|pos'].
  - destruct (Ascii.eqb a c); [intros [= <-]; lia|].
    destruct (find c r 0) as [k|] eqn:E; simpl; [|done].
    intros [= <-]. apply IH in E. lia.
  - destruct (find c r pos') as [k|] eqn:E; simpl; [|done].
    intros [= <-]. apply IH in E. lia.
Qed.

Lemma find_app_hit c p q :
  find c (p +:+ String c q) 0 = Some (default (size p) (find c p 0)).
Proof.
  induction p as [|a r IH]; simpl.
  - by rewrite Ascii.eqb_refl.
  - destruct (Ascii.eqb a c); [done|].
    rewrite IH. by destruct (find c r 0).
Qed.

Lemma substring_prefix_app n p q :
  n <= size p -> substr (p +:+ q) 0 n = substr p 0 n.
Proof.
  unfold substr, size. revert n.
  induction p as [|a r IH]; intros n Hn; simpl in *.
  - assert (n = 0) as -> by lia. by destruct q.
  - destruct n as [|n']; [done|]. f_equal. apply IH. lia.
Qed.

Lemma substring_all p : substr p 0 (size p) = p.
Proof.
  unfold substr, size. induction p as [|a r IH]; simpl; [done|].
  by rewrite IH.
Qed.

Lemma substring_whole_prefix p q : substr (p +:+ q) 0 (size p) = p.
Proof. by rewrite substring_prefix_app, substring_all. Qed.

Lemma size_app p q : size (p +:+ q) = size p + size q.
Proof.
  unfold size. induction p as [|a r IH]; simpl; [done|]. by rewrite IH.
Qed.

Lemma back_snoc s c : back (s +:+ String c "") = c.
Proof.
  induction s as [|a r IH]; simpl; [done|].
  destruct (r +:+ String c "") eqn:E; [by destruct r|done].
Qed.

Lemma remove_suffix_snoc s c : remove_suffix 1 (s +:+ String c "") = s.
Proof.
  unfold remove_suffix. rewrite size_app. simpl.
  replace (size s + 1 - 1) with (size s) by lia.
  apply substring_whole_prefix.
Qed.

(** A non-empty view is its [remove_suffix(1)] followed by its [back]. *)
Lemma snoc_decompose s :
  empty s = false -> s = remove_suffix 1 s +:+ String (back s) "".
Proof.
  induction s as [|a r IH]; [done|]. intros _.
  destruct r as [|b r']; [done|].
  specialize (IH eq_refl).
  unfold remove_suffix, substr, size in *.
  change (back (String a (String b r'))) with (back (String b r')).
  remember (String b r') as x eqn:Hx.
  assert (String.length (String a x) - 1 = S (String.length x - 1)) as ->
    by (subst x; simpl; lia).
  change (String a x = String a (substring 0 (String.length x - 1) x
                                 +:+ String (back x) "")).
  f_equal. exact IH.
Qed.

Lemma string_snoc_ind (P : string -> Prop) :
  P "" -> (forall s c, P s -> P (s +:+ String c "")) -> forall s, P s.
Proof.
  intros H0 Hs s. remember (size s) as n eqn:Hn. revert s Hn.
  induction n as [|n IH]; intros s Hn.
  - destruct s; [done|discriminate].
  - destruct (empty s) eqn:E; [by destruct s|].
    rewrite (snoc_decompose s E). apply Hs, IH.
    pose proof (f_equal size (snoc_decompose s E)) as Hsz.
    rewrite size_app in Hsz. simpl in Hsz. lia.
Qed.

End string_facts.

(** ** Tokenizer: [strip_query], [trim_slashes], [split_segments] *)

Section tokenizer_facts.
Import string_view detail.

Lemma strip_query_suffix p q :
  strip_query (p +:+ "?" +:+ q) = strip_query p.
Proof.
  unfold strip_query. change ("?" +:+ q) with (String "?" q).
  rewrite find_app_hit.
  destruct (find "?" p 0) as [k|] eqn:E; simpl.
  - apply substring_prefix_app. apply find_bounds in E. lia.
  - apply substring_whole_prefix.
Qed.

Lemma rtrim_snoc_slash s : rtrim (s +:+ "/") = rtrim s.
Proof. induction s as [|a r IH]; simpl; [done|]. by rewrite IH. Qed.

Lemma rtrim_snoc_other s c :
  is_slash c = false -> rtrim (s +:+ String c "") = s +:+ String c "".
Proof.
  intros Hc. induction s as [|a r IH]; simpl.
  - by rewrite Hc.
  - rewrite IH.
    change (String a r +:+ String c "") with (String a (r +:+ String c "")).
    destruct (r +:+ String c "") eqn:E; [|done].
    by destruct r.
Qed.

Lemma is_slash_true c : is_slash c = true -> c = "/"%char.
Proof. unfold is_slash. apply Ascii.eqb_eq. Qed.

Lemma trim_trailing_sufficient fuel p :
  size p <= fuel -> trim_trailing fuel p = rtrim p.
Proof.
  revert p. induction fuel as [|fuel IH]; intros p Hp.
  - destruct p; [done|]. unfold size in Hp. simpl in Hp. lia.
  - simpl. destruct (empty p) eqn:E; simpl.
    { by destruct p. }
    pose proof (snoc_decompose p E) as Hdec.
    pose proof (f_equal size Hdec) as Hsz.
    rewrite size_app in Hsz. simpl in Hsz.
    destruct (is_slash (back p)) eqn:Hb.
    + rewrite IH by lia. rewrite Hdec at 2.
      rewrite (is_slash_true _ Hb). by rewrite rtrim_snoc_slash.
    + rewrite Hdec at 2. rewrite rtrim_snoc_other by done. by rewrite <- Hdec.
Qed.

Lemma trim_slashes_rtrim p : trim_slashes p = rtrim (trim_leading p).
Proof. unfold trim_slashes. by apply trim_trailing_sufficient. Qed.

Lemma trim_leading_slashes n s : trim_leading (slashes n +:+ s) = trim_leading s.
Proof. induction n as [|n IH]; simpl; done. Qed.

Lemma rtrim_slashes n : rtrim (slashes n) = "".
Proof. induction n as [|n IH]; simpl; [done|]. by rewrite IH. Qed.

Lemma rtrim_app_slashes s n : rtrim (s +:+ slashes n) = rtrim s.
Proof.
  induction s as [|a r IH]; simpl.
  - apply rtrim_slashes.
  - by rewrite IH.
Qed.

Lemma trim_leading_all_slashes n : trim_leading (slashes n) = "".
Proof. induction n as [|n IH]; simpl; done. Qed.

Lemma rtrim_trim_leading_app_slashes s n :
  rtrim (trim_leading (s +:+ slashes n)) = rtrim (trim_leading s).
Proof.
  induction s as [|a r IH].
  - change ("" +:+ slashes n) with (slashes n).
    by rewrite trim_leading_all_slashes.
  - simpl. destruct (is_slash a); [done|].
    change (String a (r +:+ slashes n)) with (String a r +:+ slashes n).
    apply rtrim_app_slashes.
Qed.

Lemma trim_slashes_pad n s m :
  trim_slashes (slashes n +:+ s +:+ slashes m) = trim_slashes s.
Proof.
  rewrite !trim_slashes_rtrim, trim_leading_slashes.
  apply rtrim_trim_leading_app_slashes.
Qed.

Lemma trim_leading_decompose p :
  exists n, p = slashes n +:+ trim_leading p /\
            is_slash (front (trim_leading p)) = false.
Proof.
  induction p as [|a r (n & IH & Hf)]; simpl.
  - by exists 0.
  - destruct (is_slash a) eqn:Ha.
    + apply is_slash_true in Ha as ->. exists (S n).
      split; [|exact Hf]. simpl. rewrite append_cons. f_equal. exact IH.
    + exists 0. split; [done|]. simpl. exact Ha.
Qed.

Lemma rtrim_decompose p :
  exists m, p = rtrim p +:+ slashes m /\ is_slash (back (rtrim p)) = false.
Proof.
  induction p as [|a r (m & IH & Hb)]; simpl.
  - by exists 0.
  - destruct (rtrim r) as [|b r'] eqn:E.
    + rewrite append_nil in IH. destruct (is_slash a) eqn:Ha.
      * apply is_slash_true in Ha as ->. exists (S m).
        split; [|done]. rewrite append_nil. simpl. f_equal. exact IH.
      * exists m. split; [|simpl; exact Ha].
        rewrite append_cons, append_nil. f_equal. exact IH.
    + exists m. split; [|exact Hb]. rewrite append_cons. f_equal. exact IH.
Qed.

Lemma rtrim_front p :
  is_slash (front p) = false -> is_slash (front (rtrim p)) = false.
Proof.
  destruct p as [|a r]; simpl; [done|]. intros Ha.
  destruct (rtrim r); simpl; [by rewrite Ha|done].
Qed.

(** The [while] loop of [split_segments] stops by its own test before the
    fuel runs out. *)
Lemma split_loop_sufficient fuel extra path i out :
  size path - i <= fuel ->
  split_loop (fuel + extra) path i out = split_loop fuel path i out.
Proof.
  revert i out. induction fuel as [|fuel IH]; intros i out Hf; simpl.
  - destruct extra as [|extra]; [done|]. simpl.
    destruct (Nat.ltb_spec i (size path)); [lia|done].
  - destruct (Nat.ltb_spec i (size path)); [|done].
    destruct (find "/" path i) as [j|] eqn:E; [|done].
    apply find_bounds in E. apply IH. lia.
Qed.

End tokenizer_facts.

(** ** Pattern compiler: [parse_pattern] *)

Section compiler_facts.
Import string_view detail.

Lemma parse_parts_map parts segs :
  parse_parts parts segs = segs ++ map parse_part parts.
Proof.
  revert segs. induction parts as [|part rest IH]; intros segs; simpl.
  - by rewrite app_nil_r.
  - by rewrite IH, <- app_assoc.
Qed.

Lemma parse_pattern_map pattern :
  parse_pattern pattern = map parse_part (split_segments pattern).
Proof. unfold parse_pattern. by rewrite parse_parts_map. Qed.

Lemma parse_part_colon name :
  2 <= String.length (":" +:+ name) ->
  parse_part (":" +:+ name) = mkSegment Param name.
Proof.
  intros Hlen. unfold parse_part. rewrite append_cons, append_nil in *.
  simpl in *. unfold size.
  destruct (Nat.ltb_spec 1 (S (String.length name))); [done|lia].
Qed.

Lemma back_cons a s : empty s = false -> back (String a s) = back s.
Proof. by destruct s. Qed.

Lemma unbrace_cons a s : unbrace (String a s) = remove_suffix 1 s.
Proof.
  unfold unbrace, remove_suffix, substr, size. reflexivity.
Qed.

Lemma braces_shape name :
  "{" +:+ name +:+ "}" = String "{" (name +:+ String "}" "").
Proof. reflexivity. Qed.

Lemma app_snoc_nonempty s c : empty (s +:+ String c "") = false.
Proof. by destruct s. Qed.

Lemma empty_false_iff s : empty s = false <-> s <> "".
Proof. destruct s; simpl; split; congruence. Qed.

Lemma parse_part_braces name :
  name <> "" ->
  parse_part ("{" +:+ name +:+ "}") = mkSegment Param name.
Proof.
  intros Hname. rewrite braces_shape. unfold parse_part, is_braced_param.
  rewrite unbrace_cons, remove_suffix_snoc.
  rewrite back_cons, back_snoc by apply app_snoc_nonempty.
  cbn [empty front negb andb Ascii.eqb Bool.eqb].
  assert ((3 <=? size (String "{" (name +:+ String "}" ""))) = true) as ->.
  { apply Nat.leb_le.
    change (3 <= S (size (name +:+ String "}" ""))).
    rewrite size_app. destruct name; [done|]. unfold size. simpl. lia. }
  apply empty_false_iff in Hname. by rewrite Hname.
Qed.

(** What the two tests of [parse_pattern] tell about the shape of a part. *)
Lemma colon_test_shape part :
  negb (empty part) && Ascii.eqb (front part) ":" && (1 <? size part) = true ->
  part = ":" +:+ substr_from part 1 /\ 2 <= String.length part.
Proof.
  destruct part as [|a r]; [done|]. simpl.
  intros [Ha Hsz]%andb_true_iff.
  apply Ascii.eqb_eq in Ha as ->. apply Nat.ltb_lt in Hsz.
  unfold size in Hsz. simpl in Hsz. split; [done|lia].
Qed.

Lemma braces_test_shape part :
  is_braced_param part && negb (empty (unbrace part)) = true ->
  part = "{" +:+ unbrace part +:+ "}" /\ unbrace part <> "".
Proof.
  unfold is_braced_param.
  intros [[[Hsz Hf]%andb_true_iff Hb]%andb_true_iff Hne]%andb_true_iff.
  apply Nat.leb_le in Hsz. apply negb_true_iff, empty_false_iff in Hne.
  split; [|done].
  destruct part as [|a r]; [done|].
  simpl in Hf. apply Ascii.eqb_eq in Hf as ->. apply Ascii.eqb_eq in Hb.
  assert (empty r = false) as Hr.
  { destruct r; [|done]. unfold size in Hsz. simpl in Hsz. lia. }
  rewrite back_cons in Hb by done.
  rewrite unbrace_cons, braces_shape. f_equal.
  rewrite <- Hb. by apply snoc_decompose.
Qed.

Lemma parse_part_classified part : classified part (parse_part part).
Proof.
  unfold parse_part.
  destruct (negb (empty part) && Ascii.eqb (front part) ":" && (1 <? size part))
    eqn:Hcolon.
  { apply colon_test_shape in Hcolon as [Hshape Hlen].
    rewrite Hshape at 1. apply classified_colon. by rewrite <- Hshape. }
  destruct (is_braced_param part && negb (empty (unbrace part))) eqn:Hbr.
  { apply braces_test_shape in Hbr as [Hshape Hne].
    rewrite Hshape at 1. by apply classified_braces. }
  apply classified_literal.
  - intros name Hlen ->.
    pose proof (parse_part_colon name Hlen) as Hp. unfold parse_part in Hp.
    rewrite Hcolon, Hbr in Hp. discriminate.
  - intros name Hne ->.
    pose proof (parse_part_braces name Hne) as Hp. unfold parse_part in Hp.
    rewrite Hcolon, Hbr in Hp. discriminate.
Qed.

Lemma classified_deterministic tok s1 s2 :
  classified tok s1 -> classified tok s2 -> s1 = s2.
Proof.
  assert (forall seg, classified tok seg -> seg = parse_part tok) as Hfun.
  { intros seg Hc. destruct Hc as [name Hlen|name Hne| |tok Hc Hb].
    - symmetry. by apply parse_part_colon.
    - symmetry. by apply parse_part_braces.
    - reflexivity.
    - pose proof (parse_part_classified tok) as Hp.
      inversion Hp as [name Hlen Ht Hs|name Hne Ht Hs|Ht Hs|tok' _ _ Ht Hs].
      + exfalso. apply (Hc name); [by rewrite <- Ht|done].
      + exfalso. by apply (Hb name).
      + done.
      + done. }
  intros H1 H2. by rewrite (Hfun _ H1), (Hfun _ H2).
Qed.

End compiler_facts.

(** ** Matcher: [method_matches], the positional loop, the route scan *)

Section matcher_facts.
Import detail.

Lemma method_matches_compatible route_m req_m :
  method_matches route_m req_m = true <-> method_compatible route_m req_m.
Proof.
  unfold method_matches, method_compatible, Method_eqb.
  destruct (decide (route_m = Any)) as [->|Hne]; simpl.
  - split; [by left|done].
  - rewrite bool_decide_eq_false_2 by done.
    rewrite bool_decide_eq_true. split; [by right|by intros [?|?]].
Qed.

Lemma emplace_lookup k v (m : gmap string string) name :
  emplace k v m !! name =
    match m !! name with
    | Some x => Some x
    | None => if decide (k = name) then Some v else None
    end.
Proof.
  unfold emplace. destruct (m !! k) as [x|] eqn:Ek.
  - destruct (m !! name) eqn:En; [done|].
    destruct (decide (k = name)) as [->|]; [congruence|done].
  - destruct (decide (k = name)) as [->|Hne].
    + by rewrite lookup_insert_eq, Ek.
    + rewrite lookup_insert_ne by done. by destruct (m !! name).
Qed.

Lemma segment_is_param seg name :
  seg = mkSegment Param name <-> kind seg = Param /\ text seg = name.
Proof. destruct seg as [k t]; simpl. split; [by intros [= -> ->]|by intros [-> ->]]. Qed.

Lemma first_capture_occurrence name segs parts i v :
  first_occurrence name segs i -> parts !! i = Some v ->
  first_capture name segs parts = Some v.
Proof.
  revert parts i. induction segs as [|seg segs' IH]; intros parts i [Hi Hfirst] Hv.
  { by rewrite lookup_nil in Hi. }
  destruct parts as [|value parts']; [by rewrite lookup_nil in Hv|].
  destruct i as [|i']; simpl in *.
  - injection Hi as ->. injection Hv as ->. simpl. by rewrite decide_True.
  - assert (seg <> mkSegment Param name) as Hseg.
    { intros ->. by apply (Hfirst 0); [lia|]. }
    assert (first_occurrence name segs' i') as Hocc.
    { split; [done|]. intros j Hj. apply (Hfirst (S j)). lia. }
    rewrite segment_is_param in Hseg.
    destruct (kind seg) eqn:Hk; [by eapply IH|].
    destruct (decide (text seg = name)); [by destruct Hseg|by eapply IH].
Qed.

Lemma first_capture_inv name segs parts v :
  first_capture name segs parts = Some v ->
  exists i, first_occurrence name segs i /\ parts !! i = Some v.
Proof.
  revert parts. induction segs as [|seg segs' IH]; intros parts; [done|].
  destruct parts as [|value parts']; [done|]. simpl.
  assert (first_capture name segs' parts' = Some v ->
          seg <> mkSegment Param name ->
          exists i, first_occurrence name (seg :: segs') i /\
                    (value :: parts') !! i = Some v) as Hrec.
  { intros (i & [Hi Hfirst] & Hv)%IH Hseg. exists (S i).
    split; [split; [done|]|done].
    intros [|j] Hj; simpl; [congruence|]. apply Hfirst. lia. }
  destruct (kind seg) eqn:Hk.
  - intros Hc. apply Hrec; [done|]. rewrite segment_is_param. intros [? _]. congruence.
  - destruct (decide (text seg = name)) as [Ht|Ht].
    + intros [= ->]. exists 0. split; [split|done].
      * simpl. f_equal. by apply segment_is_param.
      * intros j Hj. lia.
    + intros Hc. apply Hrec; [done|]. rewrite segment_is_param. by intros [_ ?].
Qed.

(** What the positional loop leaves in the mapping when it succeeds. *)
Lemma match_segments_lookup segs parts (ps0 ps : gmap string string) name :
  match_segments segs parts ps0 = Some ps ->
  ps !! name =
    match ps0 !! name with
    | Some v => Some v
    | None => first_capture name segs parts
    end.
Proof.
  revert parts ps0. induction segs as [|seg segs' IH]; intros parts ps0; simpl.
  { intros [= ->]. by destruct (ps !! name). }
  destruct parts as [|value parts']; [done|].
  destruct (kind seg) eqn:Hk.
  - destruct (negb (String.eqb value (text seg))); [done|]. apply IH.
  - intros Hm. rewrite (IH _ _ Hm), emplace_lookup.
    destruct (ps0 !! name); [done|]. by destruct (decide (text seg = name)).
Qed.

(** When the positional loop succeeds. *)
Lemma match_segments_accepts segs parts (ps0 : gmap string string) :
  length segs = length parts ->
  is_Some (match_segments segs parts ps0) <-> Forall2 segment_accepts segs parts.
Proof.
  revert parts ps0. induction segs as [|seg segs' IH]; intros parts ps0 Hlen.
  { destruct parts; [|done]. simpl. split; [by constructor|by eexists]. }
  destruct parts as [|value parts']; [done|]. simpl in Hlen.
  rewrite Forall2_cons. unfold segment_accepts at 1. simpl.
  destruct (kind seg) eqn:Hk.
  - destruct (String.eqb_spec value (text seg)) as [Heq|Hne]; simpl.
    + rewrite IH by lia. tauto.
    + split; [by intros [? ?]|by intros [? _]].
  - rewrite IH by lia. tauto.
Qed.

Lemma try_route_Some r method parts ps :
  try_route r method parts = Some ps <->
  method_matches (route_method r) method = true /\
  length (segments r) = length parts /\
  match_segments (segments r) parts ∅ = Some ps.
Proof.
  unfold try_route.
  destruct (method_matches (route_method r) method); simpl;
    [|split; [done|by intros [? _]]].
  destruct (Nat.eqb_spec (length (segments r)) (length parts)); simpl;
    [|split; [done|by intros (_ & ? & _)]].
  split; [done|by intros (_ & _ & ?)].
Qed.

Lemma try_route_structural r method parts :
  is_Some (try_route r method parts) <-> structurally_matches r method parts.
Proof.
  unfold structurally_matches. rewrite <- method_matches_compatible. split.
  - intros [ps (Hm & Hlen & Hseg)%try_route_Some]. repeat split; [done..|].
    apply (match_segments_accepts _ _ ∅); [done|by eexists].
  - intros (Hm & Hlen & Hacc).
    apply (match_segments_accepts _ _ ∅) in Hacc as [ps Hps]; [|done].
    exists ps. by apply try_route_Some.
Qed.

Lemma match_routes_first pre r post method parts ps :
  Forall (fun r' => try_route r' method parts = None) pre ->
  try_route r method parts = Some ps ->
  match_routes (pre ++ r :: post) method parts =
    Some (mkMatch (route_handler r) ps).
Proof.
  intros Hpre Hr. induction Hpre as [|r' pre' Hr' _ IH]; simpl.
  - by rewrite Hr.
  - by rewrite Hr'.
Qed.

Lemma match_routes_Some_inv routes method parts mt :
  match_routes routes method parts = Some mt ->
  exists pre r post,
    routes = pre ++ r :: post /\
    Forall (fun r' => try_route r' method parts = None) pre /\
    try_route r method parts = Some (m_params mt) /\
    m_handler mt = route_handler r.
Proof.
  induction routes as [|r rest IH]; simpl; [done|].
  destruct (try_route r method parts) as [ps|] eqn:Hr.
  - intros [= <-]. by exists [], r, rest.
  - intros (pre & r' & post & -> & Hpre & Hr' & Hh)%IH.
    exists (r :: pre), r', post. repeat split; [|done..]. by constructor.
Qed.

Lemma match_routes_None routes method parts :
  match_routes routes method parts = None <->
  Forall (fun r => try_route r method parts = None) routes.
Proof.
  induction routes as [|r rest IH]; simpl; [by split; [constructor|]|].
  rewrite Forall_cons, <- IH.
  destruct (try_route r method parts); [|tauto].
  split; [done|by intros [? _]].
Qed.

Lemma match_routes_skip r rest method parts :
  try_route r method parts = None ->
  match_routes (r :: rest) method parts = match_routes rest method parts.
Proof. intros Hr. simpl. by rewrite Hr. Qed.

Lemma match_segments_mismatch segs parts (ps0 : gmap string string) i seg value :
  length segs = length parts ->
  segs !! i = Some seg -> parts !! i = Some value ->
  kind seg = Static -> value <> text seg ->
  match_segments segs parts ps0 = None.
Proof.
  intros Hlen Hseg Hval Hk Hne. apply eq_None_not_Some.
  rewrite match_segments_accepts by done. intros Hacc.
  pose proof (Forall2_lookup_lr _ _ _ _ _ _ Hacc Hseg Hval) as Hsv.
  unfold segment_accepts in Hsv. by rewrite Hk in Hsv.
Qed.

Lemma match_segments_statics_agree segs parts (ps0 : gmap string string) :
  length segs = length parts ->
  (forall i seg value, segs !! i = Some seg -> parts !! i = Some value ->
                       kind seg = Static -> value = text seg) ->
  is_Some (match_segments segs parts ps0).
Proof.
  intros Hlen Hagree. apply match_segments_accepts; [done|].
  apply Forall2_same_length_lookup_2; [done|].
  intros i seg value Hseg Hval. unfold segment_accepts.
  destruct (kind seg) eqn:Hk; [by eapply Hagree|done].
Qed.

Lemma parse_part_static part :
  kind (parse_part part) = Static -> text (parse_part part) = part.
Proof.
  unfold parse_part.
  destruct (negb (string_view.empty part) &&
            Ascii.eqb (string_view.front part) ":" &&
            (1 <? string_view.size part)); [done|].
  by destruct (is_braced_param part && negb (string_view.empty (unbrace part))).
Qed.

Lemma match_segments_all_static parts (ps0 : gmap string string) :
  Forall (fun seg => kind seg = Static) (map parse_part parts) ->
  match_segments (map parse_part parts) parts ps0 = Some ps0.
Proof.
  induction parts as [|part rest IH]; simpl; [done|].
  intros [Hk Hrest]%Forall_cons. rewrite Hk, (parse_part_static _ Hk).
  rewrite String.eqb_refl. simpl. by apply IH.
Qed.

End matcher_facts.

(** ** Padding a path with slashes *)

Section padding_facts.
Import string_view detail.

Lemma strip_query_cons a r :
  a <> "?"%char -> strip_query (String a r) = String a (strip_query r).
Proof.
  intros Ha. unfold strip_query. simpl.
  destruct (Ascii.eqb_spec a "?"); [done|].
  by destruct (find "?" r 0).
Qed.

Lemma strip_query_slashes n : strip_query (slashes n) = slashes n.
Proof.
  induction n as [|n IH]; [done|]. simpl.
  rewrite strip_query_cons by done. by rewrite IH.
Qed.

Lemma strip_query_app_slashes s m :
  exists m', strip_query (s +:+ slashes m) = strip_query s +:+ slashes m'.
Proof.
  induction s as [|a r (m' & IH)].
  - exists m. by rewrite !append_nil, strip_query_slashes.
  - destruct (Ascii.eqb_spec a "?") as [->|Ha].
    + by exists 0.
    + exists m'. rewrite append_cons, !strip_query_cons by done.
      by rewrite IH.
Qed.

Lemma strip_query_pad n s m :
  exists m', strip_query (slashes n +:+ s +:+ slashes m) =
             slashes n +:+ strip_query s +:+ slashes m'.
Proof.
  destruct (strip_query_app_slashes s m) as (m' & Hs). exists m'.
  induction n as [|n IH]; [by rewrite !append_nil|].
  simpl slashes. rewrite !append_cons, strip_query_cons by done.
  by rewrite IH.
Qed.

Lemma split_segments_pad n s m :
  split_segments (slashes n +:+ s +:+ slashes m) = split_segments s.
Proof.
  unfold split_segments.
  destruct (strip_query_pad n s m) as (m' & ->).
  by rewrite trim_slashes_pad.
Qed.

End padding_facts.

(** * Properties stated by the specification *)

Section specification_properties.
Import string_view detail.

(** C6. A route passes the method check exactly when its method is the
    wildcard [Any] or is the request method itself; a route failing the
    check is skipped. With only GET ["/health"] registered, POST
    ["/health"] has no match and [dispatch] reports [false]. *)
Theorem method_check_exact (route_m req_m : Method) :
  (method_matches route_m req_m = true <-> route_m = Any \/ route_m = req_m) /\
  (forall r parts, route_method r = route_m ->
     ~ (route_m = Any \/ route_m = req_m) ->
     try_route r req_m parts = None) /\
  (forall h ps res,
     match_ (get Router_new "/health" h) Post "/health" = None /\
     dispatch (get Router_new "/health" h) (mkRequest Post "/health" ps) res
       = (false, mkRequest Post "/health" ps, res)).
Proof.
  split; [apply method_matches_compatible|]. split.
  - intros r parts <-. rewrite <- (method_matches_compatible (route_method r) req_m).
    intros Hno%not_true_is_false. unfold try_route. by rewrite Hno.
  - intros h ps res. split; reflexivity.
Qed.

(** C7. A query suffix is ignored: [match] on [p + "?" + q] is [match] on
    [p], for every table, method, path and query string, because the
    tokenizer yields the same parts; patterns go through the same tokenizer,
    so the same holds for [parse_pattern]. *)
Theorem query_suffix_ignored (rt : Router) (m : Method) (p q : string) :
  match_ rt m (p +:+ "?" +:+ q) = match_ rt m p /\
  split_segments (p +:+ "?" +:+ q) = split_segments p /\
  parse_pattern (p +:+ "?" +:+ q) = parse_pattern p /\
  match_ rt Get "/users/42?x=1" = match_ rt Get "/users/42".
Proof.
  assert (split_segments (p +:+ "?" +:+ q) = split_segments p) as Hsplit.
  { unfold split_segments. by rewrite strip_query_suffix. }
  repeat split.
  - unfold match_. by rewrite Hsplit.
  - exact Hsplit.
  - unfold parse_pattern. by rewrite Hsplit.
Qed.

(** C8. Leading and trailing slashes are tolerated: [trim_slashes] removes
    a run of slashes at each end and leaves a view that neither starts nor
    ends with a slash; ["/a/"], ["/a"] and ["//a//"] all tokenize to
    [["a"]]; padding any path with slashes at either end does not change
    its tokens, so two paths that differ only in their leading and trailing
    slashes tokenize identically. *)
Theorem edge_slashes_tolerated (s : string) :
  (exists n m, s = slashes n +:+ trim_slashes s +:+ slashes m /\
               is_slash (front (trim_slashes s)) = false /\
               is_slash (back (trim_slashes s)) = false) /\
  split_segments "/a/" = ["a"] /\
  split_segments "/a" = ["a"] /\
  split_segments "//a//" = ["a"] /\
  (forall n m, split_segments (slashes n +:+ s +:+ slashes m) = split_segments s) /\
  (forall n1 m1 n2 m2,
     split_segments (slashes n1 +:+ s +:+ slashes m1)
       = split_segments (slashes n2 +:+ s +:+ slashes m2)).
Proof.
  split; [|repeat split; try reflexivity; intros;
           rewrite ?split_segments_pad; reflexivity].
  rewrite trim_slashes_rtrim.
  destruct (trim_leading_decompose s) as (n & Hn & Hfront).
  destruct (rtrim_decompose (trim_leading s)) as (m & Hm & Hback).
  exists n, m. repeat split.
  - by rewrite <- Hm.
  - by apply rtrim_front.
  - exact Hback.
Qed.

(** C9. [dispatch] on no match is a no-op returning [false]: the request
    (its parameter mapping included) and the response come back as they
    went in. An empty table matches nothing, so this covers every request
    there. *)
Theorem dispatch_no_match_is_noop (rt : Router) (req : Request) (res : Response) :
  match_ rt (req_method req) (req_path req) = None ->
  dispatch rt req res = (false, req, res) /\
  (forall req' res', match_ Router_new (req_method req') (req_path req') = None /\
                     dispatch Router_new req' res' = (false, req', res')).
Proof.
  intros Hnone. split.
  - unfold dispatch. by rewrite Hnone.
  - intros req' res'. split; reflexivity.
Qed.

Lemma dispatch_no_match_is_noop_witness :
  let rt := get Router_new "/health" keep_response in
  let req := mkRequest Get "/nope" {[ "stale" := "kept" ]} in
  let res := mkResponse 200 "untouched" in
  match_ rt (req_method req) (req_path req) = None /\
  dispatch rt req res = (false, req, res).
Proof.
  intros rt req res. split; [reflexivity|].
  apply (dispatch_no_match_is_noop rt req res). reflexivity.
Defined.

(** C4. [match] selects a route only if the number of its segments is the
    number of parts of the tokenized path: the route the scan stops at has
    that many segments, and a route with another count is skipped. So
    ["/a/:b"] matches neither ["/a"] nor ["/a/b/c"], under any methods. *)
Theorem match_requires_equal_segment_count (rt : Router) (method : Method)
    (path : string) (mt : Match) :
  match_ rt method path = Some mt ->
  (exists pre r post,
     routes_ rt = pre ++ r :: post /\
     Forall (fun r' => try_route r' method (split_segments path) = None) pre /\
     try_route r method (split_segments path) = Some (m_params mt) /\
     m_handler mt = route_handler r /\
     length (segments r) = length (split_segments path)) /\
  (forall r, length (segments r) <> length (split_segments path) ->
             try_route r method (split_segments path) = None) /\
  (forall route_m req_m h,
     match_ (add Router_new route_m "/a/:b" h) req_m "/a" = None /\
     match_ (add Router_new route_m "/a/:b" h) req_m "/a/b/c" = None).
Proof.
  intros Hm. split; [|split].
  - apply match_routes_Some_inv in Hm as (pre & r & post & Hrt & Hpre & Hr & Hh).
    exists pre, r, post. repeat split; try done.
    by apply try_route_Some in Hr as (_ & Hlen & _).
  - intros r Hlen. unfold try_route.
    destruct (method_matches (route_method r) method); [|done]. simpl.
    by destruct (Nat.eqb_spec (length (segments r)) (length (split_segments path))).
  - intros route_m req_m h. split; by destruct route_m, req_m.
Qed.

Lemma match_requires_equal_segment_count_witness :
  let rt := get Router_new "/a/:b" keep_response in
  let mt := mkMatch keep_response {[ "b" := "7" ]} in
  match_ rt Get "/a/7/" = Some mt /\
  exists pre r post,
    routes_ rt = pre ++ r :: post /\
    Forall (fun r' => try_route r' Get (split_segments "/a/7/") = None) pre /\
    try_route r Get (split_segments "/a/7/") = Some (m_params mt) /\
    m_handler mt = route_handler r /\
    length (segments r) = length (split_segments "/a/7/").
Proof.
  intros rt mt. split; [reflexivity|].
  exact (proj1 (match_requires_equal_segment_count rt Get "/a/7/" mt eq_refl)).
Defined.

(** C10. The wildcard test is on the route side only. A request whose
    method is [Any] passes the method check of no route registered with a
    specific verb, although a route registered with [Any] accepts every
    verb; such a route is skipped, so removing it from the table changes
    nothing for the request, and the route [match] returns was registered
    with [Any]. *)
Theorem any_request_only_any_routes (rt : Router) (path : string) :
  (forall v, v <> Any ->
     method_matches v Any = false /\ method_matches Any v = true) /\
  (forall r, route_method r <> Any ->
     try_route r Any (split_segments path) = None) /\
  (forall pre r post, routes_ rt = pre ++ r :: post -> route_method r <> Any ->
     match_ rt Any path = match_ (mkRouter (pre ++ post)) Any path) /\
  (forall mt, match_ rt Any path = Some mt ->
     exists pre r post,
       routes_ rt = pre ++ r :: post /\
       route_method r = Any /\
       m_handler mt = route_handler r /\
       try_route r Any (split_segments path) = Some (m_params mt)).
Proof.
  assert (forall r, route_method r <> Any ->
            try_route r Any (split_segments path) = None) as Hskip.
  { intros r Hr. unfold try_route. by destruct (route_method r). }
  split; [|split; [|split]].
  - intros v Hv. by destruct v.
  - exact Hskip.
  - intros pre r post Hrt Hr. unfold match_. rewrite Hrt. simpl. clear Hrt.
    induction pre as [|r' pre' IH]; simpl.
    + by rewrite Hskip.
    + by rewrite IH.
  - intros mt (pre & r & post & Hrt & _ & Hr & Hh)%match_routes_Some_inv.
    exists pre, r, post. repeat split; try done.
    destruct (decide (route_method r = Any)) as [|Hne]; [done|].
    rewrite (Hskip r Hne) in Hr. discriminate.
Qed.

(** C2. Registration order is match priority. When some route of the table
    structurally matches the request (method, segment count, positions),
    [match] returns the first such route in registration order, with the
    parameters captured on it; no route before it matches, and whatever is
    registered after it is not looked at. In particular a Param route
    registered first wins over a Static route registered later for the same
    path. *)
Theorem first_registered_route_wins (rt : Router) (method : Method) (path : string) :
  (exists r, r ∈ routes_ rt /\ structurally_matches r method (split_segments path)) ->
  (exists pre r post ps,
     routes_ rt = pre ++ r :: post /\
     Forall (fun r' => ~ structurally_matches r' method (split_segments path)) pre /\
     structurally_matches r method (split_segments path) /\
     match_segments (segments r) (split_segments path) ∅ = Some ps /\
     match_ rt method path = Some (mkMatch (route_handler r) ps) /\
     forall post', match_ (mkRouter (pre ++ r :: post')) method path
                   = Some (mkMatch (route_handler r) ps)) /\
  (forall h1 h2,
     match_ (get (get Router_new "/users/:id" h1) "/users/me" h2) Get "/users/me"
       = Some (mkMatch h1 {[ "id" := "me" ]})).
Proof.
  intros (r0 & Hin & Hr0). split; [|intros h1 h2; reflexivity].
  set (parts := split_segments path) in *.
  destruct (match_routes (routes_ rt) method parts) as [mt|] eqn:Hm.
  - apply match_routes_Some_inv in Hm as (pre & r & post & Hrt & Hpre & Hr & Hh).
    exists pre, r, post, (m_params mt). split; [done|]. split; [|split; [|split]].
    + eapply Forall_impl; [exact Hpre|]. intros r' Hnone Hs.
      apply try_route_structural in Hs as [ps Hs]. congruence.
    + apply try_route_structural. by eexists.
    + by apply try_route_Some in Hr as (_ & _ & ?).
    + assert (forall post', match_routes (pre ++ r :: post') method parts
                = Some (mkMatch (route_handler r) (m_params mt))) as Hstop.
      { intros post'. by apply match_routes_first. }
      split; [|exact Hstop]. unfold match_. fold parts. rewrite Hrt. apply Hstop.
  - exfalso. rewrite match_routes_None, Forall_forall in Hm.
    apply try_route_structural in Hr0 as [ps Hps].
    rewrite (Hm r0 Hin) in Hps. discriminate.
Qed.

Lemma first_registered_route_wins_witness :
  let rt := get (get (post Router_new "/users/me" keep_response)
                     "/users/:id" keep_response)
                "/users/me" (fun _ _ => mkResponse 500 "shadowed") in
  exists pre r post ps,
    routes_ rt = pre ++ r :: post /\
    Forall (fun r' => ~ structurally_matches r' Get (split_segments "/users/me")) pre /\
    structurally_matches r Get (split_segments "/users/me") /\
    match_segments (segments r) (split_segments "/users/me") ∅ = Some ps /\
    match_ rt Get "/users/me" = Some (mkMatch (route_handler r) ps) /\
    forall post', match_ (mkRouter (pre ++ r :: post')) Get "/users/me"
                  = Some (mkMatch (route_handler r) ps).
Proof.
  intros rt.
  refine (proj1 (first_registered_route_wins rt Get "/users/me" _)).
  exists (mkRoute Get "/users/:id" (parse_pattern "/users/:id") keep_response).
  split.
  - right. left.
  - split; [by right|]. split; [reflexivity|].
    repeat constructor.
Defined.

(** C5, as the code has it. For a route that reaches the positional check:
    a Static segment requires the path part to be equal to its text, a
    mismatch rejects the route and the scan goes on with the next one; a
    Param segment never rejects, whatever the part is, so the route is taken
    as soon as every Static position agrees. A Param segment records the
    part, verbatim, under its name unless an earlier Param segment of the
    route has the same name, the earlier value being kept: the mapping binds
    exactly the names of the Param segments, each to the literal text of the
    part at the first position declaring it. An all-static pattern matched
    against itself succeeds with the empty mapping. *)
Theorem positional_comparison (r : Route) (rest : list Route) (method : Method)
    (parts : list string) :
  method_matches (route_method r) method = true ->
  length (segments r) = length parts ->
  (forall i seg value,
     segments r !! i = Some seg -> parts !! i = Some value ->
     kind seg = Static -> value <> text seg ->
     try_route r method parts = None /\
     match_routes (r :: rest) method parts = match_routes rest method parts) /\
  ((forall i seg value,
      segments r !! i = Some seg -> parts !! i = Some value ->
      kind seg = Static -> value = text seg) ->
   exists ps, try_route r method parts = Some ps /\
              match_routes (r :: rest) method parts
                = Some (mkMatch (route_handler r) ps)) /\
  (forall ps, try_route r method parts = Some ps ->
     (forall name i value,
        first_occurrence name (segments r) i -> parts !! i = Some value ->
        ps !! name = Some value) /\
     (forall name value, ps !! name = Some value ->
        exists i, first_occurrence name (segments r) i /\ parts !! i = Some value)) /\
  (forall m pat h,
     Forall (fun seg => kind seg = Static) (parse_pattern pat) ->
     match_ (add Router_new m pat h) m pat = Some (mkMatch h ∅)).
Proof.
  intros Hmeth Hlen. split; [|split; [|split]].
  - intros i seg value Hseg Hval Hk Hne.
    assert (try_route r method parts = None) as Hnone.
    { unfold try_route. rewrite Hmeth, Hlen, Nat.eqb_refl. simpl.
      by eapply match_segments_mismatch. }
    split; [done|by apply match_routes_skip].
  - intros Hagree.
    destruct (match_segments_statics_agree (segments r) parts ∅ Hlen Hagree)
      as [ps Hps].
    assert (try_route r method parts = Some ps) as Hr
      by by apply try_route_Some.
    exists ps. split; [done|]. simpl. by rewrite Hr.
  - intros ps (_ & _ & Hps)%try_route_Some.
    assert (forall name, ps !! name = first_capture name (segments r) parts) as Hfc.
    { intros name. by rewrite (match_segments_lookup _ _ _ _ name Hps), lookup_empty. }
    split.
    + intros name i value Hocc Hval. rewrite Hfc.
      by eapply first_capture_occurrence.
    + intros name value. rewrite Hfc. apply first_capture_inv.
  - intros m pat h Hstatic. unfold match_, add. simpl.
    assert (try_route (mkRoute m pat (parse_pattern pat) h) m (split_segments pat)
            = Some ∅) as ->; [|done].
    apply try_route_Some. simpl. split; [|split].
    + unfold method_matches, Method_eqb. destruct (bool_decide (m = Any)); [done|].
      by apply bool_decide_eq_true.
    + by rewrite parse_pattern_map, length_map.
    + rewrite parse_pattern_map in *. by apply match_segments_all_static.
Qed.

Lemma positional_comparison_witness :
  let r := mkRoute Get "/posts/{postId}/comments/{id}"
             (parse_pattern "/posts/{postId}/comments/{id}") keep_response in
  let parts := split_segments "/posts/7/comments/99/" in
  try_route r Get parts = Some {[ "postId" := "7"; "id" := "99" ]} /\
  forall ps, try_route r Get parts = Some ps ->
     (forall name i value,
        first_occurrence name (segments r) i -> parts !! i = Some value ->
        ps !! name = Some value) /\
     (forall name value, ps !! name = Some value ->
        exists i, first_occurrence name (segments r) i /\ parts !! i = Some value).
Proof.
  intros r parts. split; [reflexivity|].
  exact (proj1 (proj2 (proj2
           (positional_comparison r [] Get parts eq_refl eq_refl)))).
Defined.

(** C5, as stated, fails where a name repeats: in ["/a/:x/:x"] matched
    against ["/a/1/2"] the segment at position 2 is a Param named [x] and
    the part there is ["2"], yet the match succeeds with [x] bound to
    ["1"]: that segment did not capture its part under its name. *)
Lemma repeated_param_not_recaptured :
  let segs := parse_pattern "/a/:x/:x" in
  let parts := split_segments "/a/1/2" in
  exists ps,
    match_segments segs parts ∅ = Some ps /\
    segs !! 2 = Some (mkSegment Param "x") /\
    parts !! 2 = Some "2" /\
    ps !! "x" = Some "1" /\
    ps !! "x" <> Some "2".
Proof.
  intros segs parts. exists {[ "x" := "1" ]}.
  split; [reflexivity|]. split; [reflexivity|]. split; [reflexivity|].
  split; [reflexivity|]. vm_compute. discriminate.
Qed.

(** C1, as the code has it. On a successful match the value stored under a
    parameter name is the path part at the position of the first Param
    segment with that name in the selected route: [emplace] keeps the
    binding it finds, so a later occurrence of the name never replaces the
    value captured by an earlier one. *)
Theorem duplicate_name_first_occurrence_wins (rt : Router) (method : Method)
    (path : string) (mt : Match) :
  match_ rt method path = Some mt ->
  (exists pre r post,
     routes_ rt = pre ++ r :: post /\
     Forall (fun r' => try_route r' method (split_segments path) = None) pre /\
     try_route r method (split_segments path) = Some (m_params mt) /\
     m_handler mt = route_handler r /\
     forall name i value,
       first_occurrence name (segments r) i ->
       split_segments path !! i = Some value ->
       m_params mt !! name = Some value) /\
  (forall k v1 v2 (ps : gmap string string),
     emplace k v2 (emplace k v1 ps) = emplace k v1 ps) /\
  (forall h, m_params <$> match_ (get Router_new "/a/:x/:x" h) Get "/a/1/2"
             = Some {[ "x" := "1" ]}).
Proof.
  intros Hm. split; [|split].
  - apply match_routes_Some_inv in Hm as (pre & r & post & Hrt & Hpre & Hr & Hh).
    exists pre, r, post. repeat split; try done.
    intros name i value Hocc Hval.
    pose proof Hr as (_ & _ & Hps)%try_route_Some.
    rewrite (match_segments_lookup _ _ _ _ name Hps), lookup_empty.
    by eapply first_capture_occurrence.
  - intros k v1 v2 ps. apply map_eq. intros name.
    rewrite !emplace_lookup. destruct (ps !! name); [done|].
    by destruct (decide (k = name)).
  - intros h. reflexivity.
Qed.

Lemma duplicate_name_first_occurrence_wins_witness :
  let rt := get Router_new "/a/:x/:x" keep_response in
  let mt := mkMatch keep_response {[ "x" := "1" ]} in
  match_ rt Get "/a/1/2" = Some mt /\
  exists pre r post,
    routes_ rt = pre ++ r :: post /\
    Forall (fun r' => try_route r' Get (split_segments "/a/1/2") = None) pre /\
    try_route r Get (split_segments "/a/1/2") = Some (m_params mt) /\
    m_handler mt = route_handler r /\
    forall name i value,
      first_occurrence name (segments r) i ->
      split_segments "/a/1/2" !! i = Some value ->
      m_params mt !! name = Some value.
Proof.
  intros rt mt. split; [reflexivity|].
  exact (proj1 (duplicate_name_first_occurrence_wins rt Get "/a/1/2" mt eq_refl)).
Defined.

(** C1, as stated, fails: for ["/a/:x/:x"] and the path ["/a/1/2"] the last
    occurrence of [x] is at position 2, where the part is ["2"], but the
    match binds [x] to ["1"], the part at the first occurrence. *)
Lemma duplicate_name_last_write_refuted :
  let rt := get Router_new "/a/:x/:x" keep_response in
  exists mt,
    match_ rt Get "/a/1/2" = Some mt /\
    last_occurrence "x" (parse_pattern "/a/:x/:x") 2 /\
    split_segments "/a/1/2" !! 2 = Some "2" /\
    m_params mt !! "x" = Some "1" /\
    m_params mt !! "x" <> Some "2".
Proof.
  intros rt. exists (mkMatch keep_response {[ "x" := "1" ]}).
  split; [reflexivity|]. split; [|split; [reflexivity|split; [reflexivity|]]].
  - split; [reflexivity|]. intros j Hj.
    destruct j as [|[|[|j]]]; [lia..|]. vm_compute. discriminate.
  - vm_compute. discriminate.
Qed.

End specification_properties.

(** * Further properties of the code *)

(** ** More on [std::string_view] members *)

Section string_view_facts.
Import string_view.

Lemma remove_prefix_nil n : remove_prefix n "" = "".
Proof. by destruct n. Qed.

Lemma size_remove_prefix n s : size (remove_prefix n s) = size s - n.
Proof.
  unfold size. revert s. induction n as [|n IH]; intros s; simpl.
  - by rewrite Nat.sub_0_r.
  - destruct s as [|a r]; simpl; [done|]. apply IH.
Qed.

Lemma remove_prefix_add i k s :
  remove_prefix (i + k) s = remove_prefix k (remove_prefix i s).
Proof.
  revert s. induction i as [|i IH]; intros s; simpl; [done|].
  destruct s as [|a r]; [by rewrite remove_prefix_nil|]. apply IH.
Qed.

Lemma substring_nil i n : substring i n "" = "".
Proof. by destruct i, n. Qed.

Lemma substring_remove_prefix i n s :
  substr s i n = substr (remove_prefix i s) 0 n.
Proof.
  unfold substr. revert s. induction i as [|i IH]; intros s; simpl; [done|].
  destruct s as [|a r]; [by destruct n|]. apply IH.
Qed.

Lemma find_remove_prefix c s i :
  i <= size s ->
  find c s i = (fun k => i + k) <$> find c (remove_prefix i s) 0.
Proof.
  unfold size. revert i. induction s as [|a r IH]; intros i Hi.
  - by destruct i.
  - destruct i as [|i'].
    + change (remove_prefix 0 (String a r)) with (String a r).
      by destruct (find c (String a r) 0).
    + simpl in Hi. simpl. rewrite IH by lia.
      by destruct (find c (remove_prefix i' r) 0).
Qed.

Lemma find_app c s t :
  find c (s +:+ t) 0 =
    match find c s 0 with
    | Some k => Some k
    | None => (fun k => size s + k) <$> find c t 0
    end.
Proof.
  induction s as [|a r IH].
  - rewrite append_nil. by destruct (find c t 0).
  - rewrite append_cons. simpl. destruct (Ascii.eqb a c); [done|].
    rewrite IH. destruct (find c r 0); [done|]. by destruct (find c t 0).
Qed.

Lemma find_app_none c s t :
  find c (s +:+ t) 0 = None <-> find c s 0 = None /\ find c t 0 = None.
Proof.
  rewrite find_app. destruct (find c s 0), (find c t 0); simpl;
    split; (done || by intros [? ?]).
Qed.

Lemma find_none_substring c s i n :
  find c s 0 = None -> find c (substr s i n) 0 = None.
Proof.
  unfold substr. revert i n. induction s as [|a r IH]; intros i n.
  - by rewrite substring_nil.
  - simpl. destruct (Ascii.eqb a c) eqn:Ha; [done|].
    destruct (find c r 0) eqn:Hr; [done|]. intros _.
    destruct i as [|i']; [|by apply IH].
    destruct n as [|n']; [done|]. simpl. rewrite Ha.
    by rewrite (IH 0 n').
Qed.

Lemma find_none_remove_prefix c s i :
  find c s i = None -> find c (remove_prefix i s) 0 = None.
Proof.
  revert i. induction s as [|a r IH]; intros i.
  - by rewrite remove_prefix_nil.
  - destruct i as [|i']; [done|]. simpl.
    destruct (find c r i') eqn:Hr; [done|]. intros _. by apply IH.
Qed.

Lemma find_some_substring_none c s i j :
  find c s i = Some j -> find c (substr s i (j - i)) 0 = None.
Proof.
  unfold substr. revert i j. induction s as [|a r IH]; intros i j; [done|].
  destruct i as [|i']; simpl.
  - destruct (Ascii.eqb a c) eqn:Ha; [by intros [= <-]|].
    destruct (find c r 0) as [k|] eqn:Hr; [|done]. intros [= <-]. simpl.
    rewrite Ha. specialize (IH 0 k Hr). rewrite Nat.sub_0_r in IH.
    by rewrite IH.
  - destruct (find c r i') as [k|] eqn:Hr; [|done]. intros [= <-].
    simpl. by apply IH.
Qed.

(** A view is cut at the first occurrence of a character. *)
Lemma find_split c s j :
  find c s 0 = Some j ->
  s = substr s 0 j +:+ String c (remove_prefix (S j) s).
Proof.
  unfold substr. revert j. induction s as [|a r IH]; intros j; [done|]. simpl.
  destruct (Ascii.eqb_spec a c) as [->|Ha]; [by intros [= <-]|].
  destruct (find c r 0) as [k|] eqn:Hr; [|done]. intros [= <-].
  rewrite append_cons. f_equal. by apply IH.
Qed.

Lemma back_app s t : empty t = false -> back (s +:+ t) = back t.
Proof.
  intros Ht. induction s as [|a r IH]; [done|].
  rewrite append_cons, back_cons; [done|].
  destruct r; [by rewrite append_nil|done].
Qed.

Lemma front_app s t : empty s = false -> front (s +:+ t) = front s.
Proof. by destruct s. Qed.

End string_view_facts.

(** ** More on the tokenizer *)

Section tokenizer_structure.
Import string_view detail.

Lemma slashes_app n m : slashes n +:+ slashes m = slashes (n + m).
Proof. induction n as [|n IH]; simpl; [done|]. by rewrite append_cons, IH. Qed.

Lemma find_none_from c s i : find c s 0 = None -> find c s i = None.
Proof.
  revert i. induction s as [|a r IH]; intros i; [done|]. simpl.
  destruct (Ascii.eqb a c); [done|].
  destruct (find c r 0) eqn:Hr; [done|]. intros _.
  destruct i as [|i']; [done|]. by rewrite IH.
Qed.

Lemma trim_leading_fixed p :
  is_slash (front p) = false -> trim_leading p = p.
Proof. destruct p as [|a r]; simpl; [done|]. by intros ->. Qed.

Lemma rtrim_fixed p : is_slash (back p) = false -> rtrim p = p.
Proof.
  induction p as [|a r IH]; [done|].
  destruct r as [|b r'].
  - simpl. by intros ->.
  - rewrite back_cons by done. intros Hb.
    change (rtrim (String a (String b r'))) with
      (match rtrim (String b r') with
       | "" => if is_slash a then "" else String a ""
       | String _ _ as r0 => String a r0
       end).
    by rewrite IH.
Qed.

Lemma trim_slashes_ends p :
  is_slash (front (trim_slashes p)) = false /\
  is_slash (back (trim_slashes p)) = false.
Proof.
  rewrite trim_slashes_rtrim.
  destruct (trim_leading_decompose p) as (n & _ & Hfront).
  destruct (rtrim_decompose (trim_leading p)) as (m & _ & Hback).
  split; [by apply rtrim_front|done].
Qed.

Lemma trim_slashes_fixed p :
  is_slash (front p) = false -> is_slash (back p) = false -> trim_slashes p = p.
Proof.
  intros Hf Hb. rewrite trim_slashes_rtrim, trim_leading_fixed by done.
  by apply rtrim_fixed.
Qed.

Lemma trim_slashes_subview p :
  exists n m, p = slashes n +:+ trim_slashes p +:+ slashes m.
Proof.
  rewrite trim_slashes_rtrim.
  destruct (trim_leading_decompose p) as (n & Hn & _).
  destruct (rtrim_decompose (trim_leading p)) as (m & Hm & _).
  exists n, m. by rewrite <- Hm.
Qed.

Lemma trim_slashes_empty_iff p :
  trim_slashes p = "" <-> exists n, p = slashes n.
Proof.
  split.
  - intros Hempty. destruct (trim_slashes_subview p) as (n & m & Hp).
    exists (n + m). by rewrite Hp, Hempty, append_nil, slashes_app.
  - intros [n ->]. by rewrite trim_slashes_rtrim, trim_leading_all_slashes.
Qed.

Lemma trim_slashes_keeps_free c p :
  find c p 0 = None -> find c (trim_slashes p) 0 = None.
Proof.
  destruct (trim_slashes_subview p) as (n & m & Hp). intros Hfree.
  rewrite Hp in Hfree. apply find_app_none in Hfree as [_ Hfree].
  by apply find_app_none in Hfree as [? _].
Qed.

Lemma strip_query_free p : find "?" (strip_query p) 0 = None.
Proof.
  unfold strip_query. destruct (find "?" p 0) as [j|] eqn:E; [|done].
  pose proof (find_some_substring_none _ _ _ _ E) as H.
  by rewrite Nat.sub_0_r in H.
Qed.

Lemma strip_query_fixed p : find "?" p 0 = None -> strip_query p = p.
Proof. unfold strip_query. by intros ->. Qed.

(** The accumulator of the loop is only ever extended. *)
Lemma split_loop_acc fuel path i out :
  split_loop fuel path i out = out ++ split_loop fuel path i [].
Proof.
  revert i out. induction fuel as [|fuel IH]; intros i out; simpl.
  - by rewrite app_nil_r.
  - destruct (i <? size path); [|by rewrite app_nil_r].
    destruct (find "/" path i) as [j|]; [|done].
    rewrite IH, (IH _ [_]). by rewrite app_assoc.
Qed.

(** The loop at index [i] is the loop at index 0 on the rest of the view. *)
Lemma split_loop_suffix fuel path i out :
  i <= size path ->
  split_loop fuel path i out = split_loop fuel (remove_prefix i path) 0 out.
Proof.
  revert path i out. induction fuel as [|fuel IH]; intros path i out Hi; [done|].
  simpl. rewrite size_remove_prefix.
  destruct (Nat.ltb_spec i (size path)) as [Hlt|Hge];
    destruct (Nat.ltb_spec 0 (size path - i)); try lia; [|done].
  rewrite (find_remove_prefix "/" path i) by done.
  destruct (find "/" (remove_prefix i path) 0) as [k|] eqn:E; simpl; [|done].
  pose proof (find_bounds _ _ _ _ E) as Hk. rewrite size_remove_prefix in Hk.
  rewrite (IH path) by lia. rewrite (IH (remove_prefix i path)).
  2:{ rewrite size_remove_prefix. lia. }
  replace (i + k + 1) with (i + (k + 1)) by lia.
  rewrite remove_prefix_add.
  replace (i + k - i) with k by lia. rewrite Nat.sub_0_r.
  by rewrite (substring_remove_prefix i k path).
Qed.

Lemma split_loop_parts_free c fuel path i out :
  find c path 0 = None ->
  Forall (fun part => find c part 0 = None) out ->
  Forall (fun part => find c part 0 = None) (split_loop fuel path i out).
Proof.
  intros Hfree. revert i out. induction fuel as [|fuel IH]; intros i out Hout; [done|].
  simpl. destruct (i <? size path); [|done].
  destruct (find "/" path i) as [j|].
  - apply IH. apply Forall_app. split; [done|].
    constructor; [|done]. by apply find_none_substring.
  - apply Forall_app. split; [done|]. constructor; [|done].
    by apply find_none_remove_prefix, find_none_from.
Qed.

Lemma split_loop_parts_no_slash fuel path i out :
  Forall (fun part => find "/" part 0 = None) out ->
  Forall (fun part => find "/" part 0 = None) (split_loop fuel path i out).
Proof.
  revert i out. induction fuel as [|fuel IH]; intros i out Hout; [done|].
  simpl. destruct (i <? size path); [|done].
  destruct (find "/" path i) as [j|] eqn:E.
  - apply IH. apply Forall_app. split; [done|].
    constructor; [|done]. by apply find_some_substring_none.
  - apply Forall_app. split; [done|]. constructor; [|done].
    by apply find_none_remove_prefix.
Qed.

(** On a view that does not end with a slash the loop yields at least one
    part, the parts joined by slashes are the view, and the last part is not
    empty. *)
Lemma split_loop_join fuel s :
  size s <= fuel -> empty s = false -> is_slash (back s) = false ->
  exists part rest,
    split_loop fuel s 0 [] = part :: rest /\
    join (part :: rest) = s /\
    last (part :: rest) <> Some "".
Proof.
  revert s. induction fuel as [|fuel IH]; intros s Hfuel Hne Hback.
  { destruct s; [done|]. unfold size in Hfuel. simpl in Hfuel. lia. }
  simpl. destruct (Nat.ltb_spec 0 (size s)) as [_|Hz].
  2:{ destruct s; [done|]. unfold size in Hz. simpl in Hz. lia. }
  destruct (find "/" s 0) as [j|] eqn:E.
  - pose proof (find_split _ _ _ E) as Hs.
    pose proof (find_bounds _ _ _ _ E) as Hj.
    set (s' := remove_prefix (S j) s) in *.
    assert (empty s' = false) as Hne'.
    { destruct s' eqn:Hs'; [|done]. exfalso.
      rewrite Hs, back_snoc in Hback. done. }
    assert (is_slash (back s') = false) as Hback'.
    { rewrite Hs in Hback.
      rewrite back_app in Hback by done. by rewrite back_cons in Hback. }
    assert (size s' <= fuel) as Hfuel'.
    { unfold s'. rewrite size_remove_prefix. lia. }
    destruct (IH s' Hfuel' Hne' Hback') as (part & rest & Hloop & Hjoin & Hlast).
    rewrite split_loop_acc, split_loop_suffix by lia.
    replace (j + 1) with (S j) by lia. fold s'. rewrite Hloop.
    rewrite Nat.sub_0_r. eexists _, _. split; [reflexivity|]. split.
    + change (join (substr s 0 j :: part :: rest))
        with (substr s 0 j +:+ String "/" (join (part :: rest))).
      by rewrite Hjoin, <- Hs.
    + by rewrite last_cons_cons.
  - exists (substr_from s 0), []. split; [done|]. split; [done|].
    simpl. intros [= Hs]. unfold substr_from in Hs. simpl in Hs.
    by rewrite Hs in Hne.
Qed.

Lemma split_loop_head_nonempty fuel s :
  empty s = false -> is_slash (front s) = false ->
  split_loop (S fuel) s 0 [] !! 0 <> Some "".
Proof.
  intros Hne Hfront. simpl.
  destruct (Nat.ltb_spec 0 (size s)) as [_|Hz].
  2:{ destruct s; [done|]. unfold size in Hz. simpl in Hz. lia. }
  destruct (find "/" s 0) as [j|] eqn:E.
  - rewrite split_loop_acc. simpl. intros [= Hempty].
    destruct s as [|a r]; [done|].
    simpl in Hfront. unfold is_slash in Hfront. simpl in E. rewrite Hfront in E.
    destruct (find "/" r 0); [|done]. simpl in E. injection E as <-.
    unfold substr in Hempty. simpl in Hempty. done.
  - simpl. intros [= Hs]. unfold substr_from in Hs. simpl in Hs.
    by rewrite Hs in Hne.
Qed.

End tokenizer_structure.

Section tokenizer_properties.
Import string_view detail.

Lemma split_segments_parts_free path :
  Forall (fun part => find "/" part 0 = None /\ find "?" part 0 = None)
         (split_segments path).
Proof.
  apply Forall_and. unfold split_segments. cbv zeta.
  destruct (empty (trim_slashes (strip_query path))); [by split|]. split.
  - by apply split_loop_parts_no_slash.
  - apply split_loop_parts_free; [|done].
    apply trim_slashes_keeps_free, strip_query_free.
Qed.

(** [strip_query] cuts the view at its first question mark: either there is
    none and the view is returned as it is, or what is dropped starts with
    the question mark. The result holds no question mark, so stripping twice
    is stripping once. *)
Theorem strip_query_cuts_at_first_mark (p : string) :
  ((strip_query p = p /\ find "?" p 0 = None) \/
   (exists q, p = strip_query p +:+ "?" +:+ q)) /\
  find "?" (strip_query p) 0 = None /\
  strip_query (strip_query p) = strip_query p.
Proof.
  split; [|split].
  - unfold strip_query. destruct (find "?" p 0) as [j|] eqn:E.
    + right. exists (remove_prefix (S j) p). by apply find_split.
    + by left.
  - apply strip_query_free.
  - apply strip_query_fixed, strip_query_free.
Qed.

(** [trim_slashes] is idempotent; the views it leaves untouched are those
    with no slash at either end; and it returns the empty view exactly on
    the views made of slashes only (the empty one included). *)
Theorem trim_slashes_fixed_points (p : string) :
  trim_slashes (trim_slashes p) = trim_slashes p /\
  (trim_slashes p = p <->
   is_slash (front p) = false /\ is_slash (back p) = false) /\
  (trim_slashes p = "" <-> exists n, p = slashes n).
Proof.
  pose proof (trim_slashes_ends p) as [Hf Hb].
  split; [by apply trim_slashes_fixed|]. split.
  - split; [by intros <-|]. intros [? ?]. by apply trim_slashes_fixed.
  - apply trim_slashes_empty_iff.
Qed.

(** No part produced by [split_segments] contains a slash or a question
    mark. *)
Theorem split_segments_parts_have_no_separator (path : string) :
  Forall (fun part => find "/" part 0 = None /\ find "?" part 0 = None)
         (split_segments path).
Proof.
  apply Forall_and. split.
  - eapply Forall_impl; [apply split_segments_parts_free|]. by intros part [? _].
  - eapply Forall_impl; [apply split_segments_parts_free|]. by intros part [_ ?].
Qed.

(** Round trip: the parts of a path, joined by single slashes, are the path
    without its query suffix and without its leading and trailing slashes;
    tokenizing that normal form again gives the same parts. *)
Theorem split_segments_join (path : string) :
  join (split_segments path) = trim_slashes (strip_query path) /\
  split_segments (join (split_segments path)) = split_segments path.
Proof.
  assert (join (split_segments path) = trim_slashes (strip_query path)) as Hjoin.
  { unfold split_segments. cbv zeta.
    pose proof (trim_slashes_ends (strip_query path)) as [_ Hb].
    destruct (empty (trim_slashes (strip_query path))) eqn:Hne.
    - by destruct (trim_slashes (strip_query path)).
    - destruct (split_loop_join _ _ (Nat.le_refl _) Hne Hb)
        as (part & rest & -> & Hj & _). exact Hj. }
  split; [exact Hjoin|]. rewrite Hjoin.
  pose proof (trim_slashes_ends (strip_query path)) as [Hf Hb].
  unfold split_segments at 1. cbv zeta.
  rewrite (strip_query_fixed (trim_slashes _))
    by apply trim_slashes_keeps_free, strip_query_free.
  by rewrite trim_slashes_fixed.
Qed.

Lemma split_segments_nil_iff path :
  split_segments path = [] <-> exists n, strip_query path = slashes n.
Proof.
  rewrite <- trim_slashes_empty_iff. unfold split_segments. cbv zeta.
  pose proof (trim_slashes_ends (strip_query path)) as [_ Hb].
  destruct (empty (trim_slashes (strip_query path))) eqn:Hne.
  - split; [|done]. intros _. by destruct (trim_slashes (strip_query path)).
  - destruct (split_loop_join _ _ (Nat.le_refl _) Hne Hb)
      as (part & rest & -> & _ & _).
    split; [done|]. intros Hempty. by rewrite Hempty in Hne.
Qed.

(** Empty parts can only stand inside: the first and the last part of a
    tokenized path are never empty. There is no part at all exactly when
    the path, query suffix apart, is made of slashes only. *)
Theorem split_segments_empty_parts_only_inside (path : string) :
  split_segments path !! 0 <> Some "" /\
  last (split_segments path) <> Some "" /\
  (split_segments path = [] <-> exists n, strip_query path = slashes n).
Proof.
  split; [|split; [|apply split_segments_nil_iff]].
  - pose proof (trim_slashes_ends (strip_query path)) as [Hf _].
    unfold split_segments. cbv zeta.
    destruct (empty (trim_slashes (strip_query path))) eqn:Hne; [done|].
    destruct (size (trim_slashes (strip_query path))) eqn:Hsz.
    + destruct (trim_slashes (strip_query path)); done.
    + by apply split_loop_head_nonempty.
  - pose proof (trim_slashes_ends (strip_query path)) as [_ Hb].
    unfold split_segments. cbv zeta.
    destruct (empty (trim_slashes (strip_query path))) eqn:Hne; [done|].
    by destruct (split_loop_join _ _ (Nat.le_refl _) Hne Hb)
      as (part & rest & -> & _ & Hlast).
Qed.

Lemma remove_prefix_app s t : remove_prefix (size s) (s +:+ t) = t.
Proof. unfold size. induction s as [|a r IH]; simpl; [done|]. exact IH. Qed.

Lemma front_not_slash part :
  find "/" part 0 = None -> is_slash (front part) = false.
Proof.
  destruct part as [|a r]; [done|]. simpl. unfold is_slash.
  by destruct (Ascii.eqb a "/").
Qed.

Lemma back_not_slash part :
  find "/" part 0 = None -> is_slash (back part) = false.
Proof.
  induction part as [|a r IH]; [done|]. simpl find.
  destruct (Ascii.eqb a "/") eqn:Ha; [done|].
  destruct (find "/" r 0) eqn:Hr; [done|]. intros _.
  destruct r as [|b r']; [exact Ha|].
  rewrite back_cons by done. by apply IH.
Qed.

Lemma join_cons_cons t u rest :
  join (t :: u :: rest) = t +:+ String "/" (join (u :: rest)).
Proof. reflexivity. Qed.

Lemma join_free c parts :
  c <> "/"%char ->
  Forall (fun part => find c part 0 = None) parts ->
  find c (join parts) 0 = None.
Proof.
  intros Hc. induction 1 as [|t rest Ht Hrest IH]; [done|].
  destruct rest as [|u rest']; [done|].
  rewrite join_cons_cons. apply find_app_none. split; [done|].
  cbn [find]. destruct (Ascii.eqb_spec "/" c) as [<-|_]; [done|].
  by rewrite IH.
Qed.

Lemma empty_app_r s t : empty t = false -> empty (s +:+ t) = false.
Proof. destruct s; [by rewrite append_nil|done]. Qed.

Lemma join_back parts l :
  last parts = Some l -> l <> "" ->
  empty (join parts) = false /\ back (join parts) = back l.
Proof.
  induction parts as [|u rest IH]; [done|].
  destruct rest as [|v rest'].
  - intros [= ->] Hl. split; [by destruct l|done].
  - rewrite last_cons_cons, join_cons_cons. intros Hlast Hl.
    destruct (IH Hlast Hl) as [Hne Hb].
    split; [by apply empty_app_r|].
    by rewrite back_app, back_cons.
Qed.

Lemma join_front parts t :
  parts !! 0 = Some t -> t <> "" -> front (join parts) = front t.
Proof.
  destruct parts as [|u rest]; [done|]. intros [= ->] Ht.
  destruct rest as [|v rest']; [done|].
  rewrite join_cons_cons. apply front_app. by destruct t.
Qed.

Lemma split_loop_step fuel path i out :
  split_loop (S fuel) path i out =
    if i <? size path then
      match find "/" path i with
      | None => out ++ [substr_from path i]
      | Some j => split_loop fuel path (j + 1) (out ++ [substr path i (j - i)])
      end
    else out.
Proof. reflexivity. Qed.

(** The loop takes a joined sequence apart again. *)
Lemma split_loop_of_join fuel parts :
  parts <> [] ->
  Forall (fun part => find "/" part 0 = None) parts ->
  last parts <> Some "" ->
  size (join parts) <= fuel ->
  split_loop fuel (join parts) 0 [] = parts.
Proof.
  revert fuel. induction parts as [|t rest IH]; intros fuel Hne Hfree Hlast Hfuel;
    [done|].
  apply Forall_cons in Hfree as [Ht Hrest].
  destruct rest as [|u rest'].
  - simpl in *. assert (t <> "") as Htne by congruence.
    destruct fuel as [|fuel]; [destruct t; [done|]; unfold size in Hfuel; simpl in Hfuel; lia|].
    simpl. destruct (Nat.ltb_spec 0 (size t)) as [_|Hz].
    2:{ destruct t; [done|]. unfold size in Hz. simpl in Hz. lia. }
    by rewrite Ht.
  - rewrite last_cons_cons in Hlast. rewrite join_cons_cons in *.
    specialize (IH (Nat.pred fuel) ltac:(done) Hrest Hlast).
    remember (join (u :: rest')) as x eqn:Hx. clear Hx.
    assert (size (t +:+ String "/" x) = size t + S (size x)) as Hsz
      by by rewrite size_app.
    rewrite Hsz in Hfuel.
    destruct fuel as [|fuel]; [lia|]. simpl Nat.pred in IH.
    rewrite split_loop_step, Hsz.
    destruct (Nat.ltb_spec 0 (size t + S (size x))); [|lia].
    rewrite find_app, Ht. cbn [find].
    rewrite Ascii.eqb_refl. cbn [fmap option_fmap option_map].
    rewrite Nat.add_0_r, Nat.sub_0_r.
    rewrite substring_whole_prefix.
    rewrite split_loop_acc, split_loop_suffix by lia.
    rewrite remove_prefix_add, remove_prefix_app.
    change (remove_prefix 1 (String "/" x)) with x.
    rewrite IH by lia. done.
Qed.

Lemma join_normal parts :
  Forall (fun part => find "/" part 0 = None /\ find "?" part 0 = None) parts ->
  parts !! 0 <> Some "" ->
  last parts <> Some "" ->
  strip_query (join parts) = join parts /\
  trim_slashes (join parts) = join parts /\
  (parts <> [] -> empty (join parts) = false).
Proof.
  intros [Hslash Hmark]%Forall_and Hfirst Hlast.
  split; [by apply strip_query_fixed, join_free|].
  destruct parts as [|t rest]; [done|].
  destruct (last (t :: rest)) as [l|] eqn:Hl; [|by apply last_None in Hl].
  assert (t <> "") as Ht by (intros ->; by apply Hfirst).
  assert (l <> "") as Hlne by congruence.
  destruct (join_back _ _ Hl Hlne) as [Hne Hback].
  pose proof (join_front (t :: rest) t eq_refl Ht) as Hfront.
  assert (find "/" l 0 = None) as Hlfree.
  { pose proof Hl as [pre Hpre]%last_Some.
    rewrite Forall_forall in Hslash. apply Hslash.
    rewrite Hpre. apply elem_of_app. right. by apply list_elem_of_singleton. }
  apply Forall_cons in Hslash as [Htfree _].
  split; [|done]. apply trim_slashes_fixed.
  - rewrite Hfront. by apply front_not_slash.
  - rewrite Hback. by apply back_not_slash.
Qed.

(** Round trip the other way: a sequence of parts free of slashes and
    question marks, whose first and last parts are not empty, joined by
    single slashes, tokenizes to the sequence itself. *)
Theorem split_segments_of_join (parts : list string) :
  Forall (fun part => find "/" part 0 = None /\ find "?" part 0 = None) parts ->
  parts !! 0 <> Some "" ->
  last parts <> Some "" ->
  split_segments (join parts) = parts.
Proof.
  intros Hfree Hfirst Hlast.
  destruct (join_normal parts Hfree Hfirst Hlast) as (Hstrip & Htrim & Hne).
  apply Forall_and in Hfree as [Hslash _].
  unfold split_segments. cbv zeta. rewrite Hstrip, Htrim.
  destruct parts as [|t rest]; [done|].
  rewrite Hne by done. by apply split_loop_of_join.
Qed.

Lemma split_segments_of_join_witness :
  join ["posts"; "7"; ""; "comments"] = "posts/7//comments" /\
  split_segments (join ["posts"; "7"; ""; "comments"])
    = ["posts"; "7"; ""; "comments"].
Proof.
  split; [reflexivity|].
  apply split_segments_of_join.
  - repeat constructor.
  - discriminate.
  - discriminate.
Defined.

End tokenizer_properties.

(** ** More on the pattern compiler *)

Section compiler_properties.
Import string_view detail.

Lemma is_braced_param_braces inner :
  inner <> "" -> is_braced_param ("{" +:+ inner +:+ "}") = true.
Proof.
  intros Hinner. rewrite braces_shape. unfold is_braced_param.
  rewrite back_cons, back_snoc by apply app_snoc_nonempty.
  cbn [front Ascii.eqb Bool.eqb andb]. rewrite !andb_true_r.
  apply Nat.leb_le. change (3 <= S (size (inner +:+ String "}" ""))).
  rewrite size_app. destruct inner; [done|]. unfold size. simpl. lia.
Qed.

Lemma unbrace_braces inner : unbrace ("{" +:+ inner +:+ "}") = inner.
Proof. by rewrite braces_shape, unbrace_cons, remove_suffix_snoc. Qed.

Lemma is_braced_param_inner s :
  is_braced_param s = true -> empty (unbrace s) = false.
Proof.
  unfold is_braced_param.
  intros [[Hsz _]%andb_true_iff _]%andb_true_iff. apply Nat.leb_le in Hsz.
  destruct s as [|a r]; [unfold size in Hsz; simpl in Hsz; lia|].
  rewrite unbrace_cons.
  assert (empty r = false) as Hr.
  { destruct r; [|done]. unfold size in Hsz. simpl in Hsz. lia. }
  pose proof (f_equal size (snoc_decompose r Hr)) as Hdec.
  rewrite size_app in Hdec. unfold size in *. simpl in *.
  destruct (remove_suffix 1 r); [simpl in Hdec; lia|done].
Qed.

(** [is_braced_param] and [unbrace]: a part is recognised exactly when it
    is a non-empty text between an opening and a closing brace, [unbrace]
    gives that text back, and what [unbrace] returns on a recognised part is
    never empty, so the empty-name fallthrough of [parse_pattern] is never
    taken from that test. *)
Theorem braced_param_round_trip (s : string) :
  (is_braced_param s = true <->
   exists inner, inner <> "" /\ s = "{" +:+ inner +:+ "}") /\
  (forall inner, unbrace ("{" +:+ inner +:+ "}") = inner) /\
  (is_braced_param s = true -> empty (unbrace s) = false) /\
  is_braced_param "{}" = false.
Proof.
  split; [|split; [apply unbrace_braces|split; [apply is_braced_param_inner|done]]].
  split.
  - intros Hs. exists (unbrace s).
    assert (is_braced_param s && negb (empty (unbrace s)) = true) as Htest.
    { by rewrite Hs, (is_braced_param_inner s Hs). }
    by apply braces_test_shape in Htest as [? ?].
  - intros (inner & Hinner & ->). by apply is_braced_param_braces.
Qed.

Lemma parse_part_text_free c part :
  find c part 0 = None -> find c (text (parse_part part)) 0 = None.
Proof.
  intros Hfree. unfold parse_part.
  destruct (negb (empty part) && Ascii.eqb (front part) ":" && (1 <? size part)).
  - cbn [text]. unfold substr_from.
    by apply find_none_remove_prefix, find_none_from.
  - destruct (is_braced_param part && negb (empty (unbrace part))); cbn [text];
      [|done].
    unfold unbrace. by apply find_none_substring.
Qed.

Lemma parse_part_param_named part :
  kind (parse_part part) = Param -> text (parse_part part) <> "".
Proof.
  unfold parse_part.
  destruct (negb (empty part) && Ascii.eqb (front part) ":" && (1 <? size part))
    eqn:Hcolon.
  - intros _. cbn [text].
    apply andb_true_iff in Hcolon as [_ Hsz]. apply Nat.ltb_lt in Hsz.
    intros Hempty. pose proof (size_remove_prefix 1 part) as Hrp.
    unfold substr_from in Hempty. rewrite Hempty in Hrp.
    unfold size in Hrp at 1. simpl in Hrp. lia.
  - destruct (is_braced_param part && negb (empty (unbrace part))) eqn:Hbr; [|done].
    intros _. cbn [text]. apply andb_true_iff in Hbr as [_ Hne].
    by apply negb_true_iff, empty_false_iff in Hne.
Qed.

(** What [parse_pattern] produces: one segment per part of the tokenized
    pattern; no segment text contains a slash or a question mark; and a
    Param segment never has the empty name. *)
Theorem parse_pattern_segments_well_formed (pat : string) :
  length (parse_pattern pat) = length (split_segments pat) /\
  Forall (fun seg =>
            find "/" (text seg) 0 = None /\
            find "?" (text seg) 0 = None /\
            (kind seg = Param -> text seg <> ""))
         (parse_pattern pat).
Proof.
  rewrite parse_pattern_map. split; [by rewrite length_map|].
  apply Forall_fmap.
  eapply Forall_impl; [apply split_segments_parts_free|].
  intros part [Hslash Hmark]. simpl. split; [|split].
  - by apply parse_part_text_free.
  - by apply parse_part_text_free.
  - apply parse_part_param_named.
Qed.

End compiler_properties.

(** ** Registration, matching and dispatch together *)

Section router_properties.
Import detail.

Lemma match_routes_app l1 l2 method parts :
  match_routes (l1 ++ l2) method parts =
    match match_routes l1 method parts with
    | Some mt => Some mt
    | None => match_routes l2 method parts
    end.
Proof.
  induction l1 as [|r l1' IH]; simpl; [done|].
  by destruct (try_route r method parts).
Qed.

Lemma match_add rt m pat h qm path :
  match_ (add rt m pat h) qm path =
    match match_ rt qm path with
    | Some mt => Some mt
    | None => mkMatch h <$> try_route (compiled_route m pat h) qm (split_segments path)
    end.
Proof.
  unfold match_, add. simpl. rewrite match_routes_app. simpl.
  destruct (match_routes (routes_ rt) qm (split_segments path)); [done|].
  unfold compiled_route. by destruct (try_route _ qm (split_segments path)).
Qed.

Lemma method_matches_refl m : method_matches m m = true.
Proof. by destruct m. Qed.

Lemma built_compiled rt :
  built rt ->
  Forall (fun r => segments r = parse_pattern (pattern r)) (routes_ rt).
Proof.
  induction 1 as [|rt m pat h _ IH]; simpl; [constructor|].
  apply Forall_app. split; [done|]. by repeat constructor.
Qed.

Lemma try_route_self m pat h :
  is_Some (try_route (compiled_route m pat h) m (split_segments pat)).
Proof.
  apply try_route_structural. split; [|split]; simpl.
  - apply method_matches_compatible, method_matches_refl.
  - by rewrite parse_pattern_map, length_map.
  - rewrite parse_pattern_map. apply Forall2_fmap_l, Forall_Forall2_diag.
    apply Forall_forall. intros part _. unfold segment_accepts, compose.
    destruct (kind (parse_part part)) eqn:Hk; [|done].
    symmetry. by apply parse_part_static.
Qed.

(** [add] appends one route and disturbs nothing: the route count grows by
    one, a request that matched before gets the same result, and a request
    that did not match is decided by the new route alone. *)
Theorem add_appends_one_route (rt : Router) (m : Method) (pat : string)
    (h : Handler) (qm : Method) (path : string) :
  size (add rt m pat h) = S (size rt) /\
  (forall mt, match_ rt qm path = Some mt ->
              match_ (add rt m pat h) qm path = Some mt) /\
  (match_ rt qm path = None ->
   match_ (add rt m pat h) qm path =
     mkMatch h <$> try_route (compiled_route m pat h) qm (split_segments path)).
Proof.
  split; [|split].
  - unfold size, add. simpl. rewrite length_app. simpl. lia.
  - intros mt Hm. by rewrite match_add, Hm.
  - intros Hm. by rewrite match_add, Hm.
Qed.

(** Every pattern matches itself: right after registering [pat] under a
    method, a request for the path [pat] under that method finds a route
    (the new one when the table was empty), and a route registered with
    [Any] is found under every request method. *)
Theorem pattern_matches_itself (rt : Router) (m : Method) (pat : string)
    (h : Handler) :
  is_Some (match_ (add rt m pat h) m pat) /\
  (forall qm, is_Some (match_ (add rt Any pat h) qm pat)) /\
  (exists ps, match_ (add Router_new m pat h) m pat = Some (mkMatch h ps)).
Proof.
  destruct (try_route_self m pat h) as [ps Hps].
  split; [|split].
  - rewrite match_add. destruct (match_ rt m pat); [by eexists|].
    rewrite Hps. by eexists.
  - intros qm. rewrite match_add. destruct (match_ rt qm pat); [by eexists|].
    destruct (try_route_self Any pat h) as [ps' Hps'].
    assert (try_route (compiled_route Any pat h) qm (split_segments pat)
            = Some ps') as ->; [|by eexists].
    apply try_route_Some in Hps' as (_ & Hlen & Hseg).
    by apply try_route_Some.
  - exists ps. by rewrite match_add, Hps.
Qed.

(** Invariant of the table: in every router obtained from the empty one by
    calls of [add], each stored route carries the compilation of its own
    stored pattern, with one segment per part of that pattern. *)
Theorem router_routes_are_compiled (rt : Router) :
  built rt ->
  Forall (fun r => segments r = parse_pattern (pattern r) /\
                   length (segments r) = length (split_segments (pattern r)))
         (routes_ rt).
Proof.
  intros Hb. eapply Forall_impl; [by apply built_compiled|].
  intros r ->. split; [done|]. by rewrite parse_pattern_map, length_map.
Qed.

Lemma router_routes_are_compiled_witness :
  let rt := post (get Router_new "/items" keep_response) "/items/{id}" keep_response in
  built rt /\
  Forall (fun r => segments r = parse_pattern (pattern r) /\
                   length (segments r) = length (split_segments (pattern r)))
         (routes_ rt).
Proof.
  intros rt.
  assert (built rt) as Hb by (repeat constructor).
  split; [exact Hb|]. exact (router_routes_are_compiled rt Hb).
Defined.

(** What a match hands back, for a router built by [add]: the mapping never
    binds the empty name; every bound name is free of slashes and question
    marks; every bound value is one of the parts of the request path, hence
    free of slashes and question marks too. *)
Theorem captured_bindings_are_clean (rt : Router) (qm : Method) (path : string)
    (mt : Match) :
  built rt ->
  match_ rt qm path = Some mt ->
  m_params mt !! "" = None /\
  (forall name value, m_params mt !! name = Some value ->
     name <> "" /\
     string_view.find "/" name 0 = None /\ string_view.find "?" name 0 = None /\
     (exists i, split_segments path !! i = Some value) /\
     string_view.find "/" value 0 = None /\ string_view.find "?" value 0 = None).
Proof.
  intros Hb (pre & r & post & Hrt & _ & Hr & _)%match_routes_Some_inv.
  apply try_route_Some in Hr as (_ & _ & Hps).
  assert (segments r = parse_pattern (pattern r)) as Hsegs.
  { pose proof (built_compiled rt Hb) as Hall. rewrite Forall_forall in Hall.
    apply Hall. rewrite Hrt. apply elem_of_app. right. left. }
  assert (forall name value, m_params mt !! name = Some value ->
            exists i part,
              split_segments (pattern r) !! i = Some part /\
              parse_part part = mkSegment Param name /\
              split_segments path !! i = Some value) as Hinv.
  { intros name value Hlook.
    rewrite (match_segments_lookup _ _ _ _ name Hps), lookup_empty in Hlook.
    apply first_capture_inv in Hlook as (i & [Hi _] & Hv).
    rewrite Hsegs, parse_pattern_map, list_lookup_fmap in Hi.
    destruct (split_segments (pattern r) !! i) as [part|] eqn:Hpart; [|done].
    injection Hi as Hi. by exists i, part. }
  assert (forall name value, m_params mt !! name = Some value ->
     name <> "" /\
     string_view.find "/" name 0 = None /\ string_view.find "?" name 0 = None /\
     (exists i, split_segments path !! i = Some value) /\
     string_view.find "/" value 0 = None /\ string_view.find "?" value 0 = None) as Hclean.
  { intros name value (i & part & Hpart & Hseg & Hv)%Hinv.
    pose proof (split_segments_parts_free (pattern r)) as Hpat.
    pose proof (split_segments_parts_free path) as Hpath.
    rewrite Forall_lookup in Hpat, Hpath.
    destruct (Hpat _ _ Hpart) as [Hs Hq]. destruct (Hpath _ _ Hv) as [Hvs Hvq].
    pose proof (parse_part_param_named part) as Hnamed.
    pose proof (parse_part_text_free "/" part Hs) as Hns.
    pose proof (parse_part_text_free "?" part Hq) as Hnq.
    rewrite Hseg in Hnamed, Hns, Hnq. simpl in *.
    repeat split; try done; [by apply Hnamed|by exists i]. }
  split; [|exact Hclean].
  destruct (m_params mt !! "") as [value|] eqn:Hlook; [|done].
  by destruct (Hclean "" value Hlook) as [? _].
Qed.

Lemma captured_bindings_are_clean_witness :
  let rt := get Router_new "/posts/{postId}/comments/{id}" keep_response in
  let mt := mkMatch keep_response {[ "postId" := "7"; "id" := "99" ]} in
  match_ rt Get "/posts/7/comments/99/" = Some mt /\
  m_params mt !! "" = None.
Proof.
  intros rt mt. split; [reflexivity|].
  assert (built rt) as Hb by (repeat constructor).
  exact (proj1 (captured_bindings_are_clean rt Get "/posts/7/comments/99/" mt
                  Hb eq_refl)).
Defined.

(** Registering a pattern again is dead code: when the table already holds
    a route with the same compiled segments whose method is [Any] or the
    method being registered, the new route is never selected, so every
    request gets the result it got before. *)
Theorem duplicate_registration_is_shadowed (rt : Router) (r1 : Route)
    (m : Method) (pat : string) (h : Handler) (qm : Method) (path : string) :
  r1 ∈ routes_ rt ->
  segments r1 = parse_pattern pat ->
  route_method r1 = Any \/ route_method r1 = m ->
  match_ (add rt m pat h) qm path = match_ rt qm path.
Proof.
  intros Hin Hsegs Hmeth. rewrite match_add.
  destruct (match_ rt qm path) as [mt|] eqn:Hm; [done|].
  unfold match_ in Hm. rewrite match_routes_None, Forall_forall in Hm.
  specialize (Hm r1 Hin).
  destruct (try_route (compiled_route m pat h) qm (split_segments path))
    as [ps|] eqn:Hnew; [|done].
  exfalso. apply try_route_Some in Hnew as (Hmm & Hlen & Hps). simpl in *.
  assert (try_route r1 qm (split_segments path) = Some ps) as Hr1; [|congruence].
  apply try_route_Some. rewrite Hsegs. split; [|done].
  destruct Hmeth as [->| ->]; [by destruct qm|done].
Qed.

Lemma duplicate_registration_is_shadowed_witness :
  let rt := any Router_new "/users/:id" keep_response in
  let again := fun (_ : Request) (_ : Response) => mkResponse 500 "never" in
  match_ (get rt "users/:id/" again) Get "/users/42" = match_ rt Get "/users/42".
Proof.
  intros rt again.
  apply (duplicate_registration_is_shadowed rt
           (mkRoute Any "/users/:id" (parse_pattern "/users/:id") keep_response)).
  - left.
  - reflexivity.
  - by left.
Defined.

(** Leading and trailing slashes make no difference to the router: a
    request path padded with slashes gets the result of the bare path, and
    a pattern registered with padding behaves, for every request, as the
    bare pattern does. *)
Theorem edge_slashes_ignored_by_router (rt : Router) (m qm : Method)
    (p path : string) (h : Handler) (n k : nat) :
  match_ rt qm (slashes n +:+ path +:+ slashes k) = match_ rt qm path /\
  parse_pattern (slashes n +:+ p +:+ slashes k) = parse_pattern p /\
  match_ (add rt m (slashes n +:+ p +:+ slashes k) h) qm path
    = match_ (add rt m p h) qm path.
Proof.
  assert (parse_pattern (slashes n +:+ p +:+ slashes k) = parse_pattern p) as Hpat.
  { unfold parse_pattern. by rewrite split_segments_pad. }
  split; [|split; [exact Hpat|]].
  - unfold match_. by rewrite split_segments_pad.
  - rewrite !match_add. destruct (match_ rt qm path); [done|].
    unfold compiled_route, try_route. simpl. by rewrite Hpat.
Qed.

(** The root: a pattern compiles to no segment at all exactly when, query
    suffix apart, it is made of slashes only (the empty pattern included);
    such a route matches exactly the paths of the same kind, for a
    compatible method, and captures nothing. *)
Theorem root_pattern_matches_root_paths (m qm : Method) (pat path : string)
    (h : Handler) :
  (parse_pattern pat = [] <-> exists n, detail.strip_query pat = slashes n) /\
  (parse_pattern pat = [] ->
   match_ (add Router_new m pat h) qm path =
     (if method_matches m qm && bool_decide (split_segments path = [])
      then Some (mkMatch h ∅) else None)) /\
  (split_segments path = [] <-> exists n, detail.strip_query path = slashes n).
Proof.
  split; [|split].
  - rewrite <- split_segments_nil_iff, parse_pattern_map.
    split; [apply fmap_nil_inv|by intros ->].
  - intros Hroot. rewrite match_add. simpl.
    unfold compiled_route, try_route. simpl. rewrite Hroot.
    destruct (method_matches m qm); simpl; [|done].
    by destruct (split_segments path) as [|part rest].
  - apply split_segments_nil_iff.
Qed.

Lemma append_assoc' a b c : (a +:+ b) +:+ c = a +:+ b +:+ c.
Proof. induction a as [|x a IH]; [done|]. by rewrite !append_cons, IH. Qed.

Lemma split_segments_decorated n k parts q :
  Forall (fun part => string_view.find "/" part 0 = None /\
                      string_view.find "?" part 0 = None) parts ->
  parts !! 0 <> Some "" ->
  last parts <> Some "" ->
  split_segments (slashes n +:+ join parts +:+ slashes k +:+ "?" +:+ q) = parts.
Proof.
  intros Hfree Hfirst Hlast.
  destruct (join_normal parts Hfree Hfirst Hlast) as (Hstrip & Htrim & Hne).
  rewrite <- (append_assoc' (join parts)), <- (append_assoc' (slashes n)).
  unfold split_segments. cbv zeta.
  rewrite strip_query_suffix.
  destruct (strip_query_pad n (join parts) k) as (k' & ->).
  rewrite trim_slashes_pad, Hstrip, Htrim.
  apply Forall_and in Hfree as [Hslash _].
  destruct parts as [|t rest]; [done|].
  rewrite Hne by done. by apply split_loop_of_join.
Qed.

(** End to end: take parts free of slashes and question marks, the first
    and last not empty, that a pattern accepts position by position. The
    request path made of these parts, with any slashes around it and any
    query suffix after it, matches the route registered for the pattern,
    and each parameter name is bound to the part standing at the first
    segment that declares it. *)
Theorem assembled_path_is_captured (m : Method) (pat : string) (h : Handler)
    (parts : list string) (n k : nat) (q : string) :
  Forall (fun part => string_view.find "/" part 0 = None /\
                      string_view.find "?" part 0 = None) parts ->
  parts !! 0 <> Some "" ->
  last parts <> Some "" ->
  Forall2 segment_accepts (parse_pattern pat) parts ->
  exists ps,
    match_ (add Router_new m pat h) m
           (slashes n +:+ join parts +:+ slashes k +:+ "?" +:+ q)
      = Some (mkMatch h ps) /\
    (forall name i value,
       first_occurrence name (parse_pattern pat) i -> parts !! i = Some value ->
       ps !! name = Some value) /\
    (forall name, (forall i, parse_pattern pat !! i <> Some (mkSegment Param name)) ->
       ps !! name = None).
Proof.
  intros Hfree Hfirst Hlast Hacc.
  pose proof (Forall2_length _ _ _ Hacc) as Hlen.
  destruct (proj2 (match_segments_accepts (parse_pattern pat) parts ∅ Hlen) Hacc)
    as [ps Hps].
  assert (forall name, ps !! name = first_capture name (parse_pattern pat) parts)
    as Hfc.
  { intros name. by rewrite (match_segments_lookup _ _ _ _ name Hps), lookup_empty. }
  exists ps. split; [|split].
  - rewrite match_add. simpl.
    rewrite split_segments_decorated by done.
    assert (try_route (compiled_route m pat h) m parts = Some ps) as ->; [|done].
    apply try_route_Some. simpl. split; [apply method_matches_refl|done].
  - intros name i value Hocc Hval. rewrite Hfc.
    by eapply first_capture_occurrence.
  - intros name Hno. rewrite Hfc.
    destruct (first_capture name (parse_pattern pat) parts) as [v|] eqn:Hcap; [|done].
    apply first_capture_inv in Hcap as (i & [Hi _] & _). by destruct (Hno i).
Qed.

Lemma assembled_path_is_captured_witness :
  exists ps,
    match_ (get Router_new "/users/:id" keep_response) Get "//users/42/?x=1"
      = Some (mkMatch keep_response ps) /\
    ps !! "id" = Some "42" /\
    ps !! "name" = None.
Proof.
  destruct (assembled_path_is_captured Get "/users/:id" keep_response
              ["users"; "42"] 2 1 "x=1") as (ps & Hm & Hcap & Hmiss).
  - repeat constructor.
  - discriminate.
  - discriminate.
  - repeat constructor.
  - exists ps. split; [exact Hm|]. split.
    + apply (Hcap "id" 1 "42"); [|reflexivity].
      split; [reflexivity|]. intros [|j] Hj; [discriminate|lia].
    + apply Hmiss. intros [|[|[|i]]]; discriminate.
Defined.

Lemma single_route_answers m pat h qm :
  is_Some (match_ (add Router_new m pat h) qm pat) <->
  method_matches m qm = true.
Proof.
  rewrite match_add. simpl.
  destruct (try_route_self m pat h) as [ps (_ & Hlen & Hseg)%try_route_Some].
  destruct (method_matches m qm) eqn:Hm.
  - assert (try_route (compiled_route m pat h) qm (split_segments pat) = Some ps)
      as -> by by apply try_route_Some.
    split; [done|]. intros _. by eexists.
  - unfold try_route. simpl. rewrite Hm. simpl. split; [by intros [? ?]|done].
Qed.

(** The convenience helpers register under their own verb: a route added
    by [get], [post], [put], [patch], [del], [head] or [options] answers
    its own pattern for that request method and for no other, while a route
    added by [any] answers under every request method. *)
Theorem helpers_register_their_verb (pat : string) (h : Handler) (qm : Method) :
  (is_Some (match_ (get Router_new pat h) qm pat) <-> qm = Get) /\
  (is_Some (match_ (post Router_new pat h) qm pat) <-> qm = Post) /\
  (is_Some (match_ (put Router_new pat h) qm pat) <-> qm = Put) /\
  (is_Some (match_ (patch Router_new pat h) qm pat) <-> qm = Patch) /\
  (is_Some (match_ (del Router_new pat h) qm pat) <-> qm = Delete_) /\
  (is_Some (match_ (head Router_new pat h) qm pat) <-> qm = Head) /\
  (is_Some (match_ (options Router_new pat h) qm pat) <-> qm = Options) /\
  is_Some (match_ (any Router_new pat h) qm pat).
Proof.
  unfold get, post, put, patch, del, head, options, any.
  rewrite !single_route_answers.
  repeat split; try (by destruct qm); by intros ->.
Qed.

End router_properties.

(** ** The pattern compiler on pattern strings *)

Section pattern_classification.
Import string_view detail.

Lemma join_split_segments pattern :
  join (split_segments pattern) = trim_slashes (strip_query pattern).
Proof.
  unfold split_segments. cbv zeta.
  pose proof (trim_slashes_ends (strip_query pattern)) as [_ Hb].
  destruct (empty (trim_slashes (strip_query pattern))) eqn:Hne.
  - by destruct (trim_slashes (strip_query pattern)).
  - by destruct (split_loop_join _ _ (Nat.le_refl _) Hne Hb)
      as (part & rest & -> & Hj & _).
Qed.

Lemma split_segments_join_parts parts :
  Forall (fun tok => find "/" tok 0 = None /\ find "?" tok 0 = None) parts ->
  parts !! 0 <> Some "" ->
  last parts <> Some "" ->
  split_segments (join parts) = parts.
Proof.
  intros Hfree Hfirst Hlast.
  destruct (join_normal parts Hfree Hfirst Hlast) as (Hstrip & Htrim & Hne).
  apply Forall_and in Hfree as [Hslash _].
  unfold split_segments. cbv zeta. rewrite Hstrip, Htrim.
  destruct parts as [|t rest]; [done|].
  rewrite Hne by done. by apply split_loop_of_join.
Qed.

Lemma parse_parts_classified parts :
  Forall2 classified parts (map parse_part parts).
Proof.
  apply Forall2_fmap_r, Forall_Forall2_diag, Forall_forall.
  intros tok _. apply parse_part_classified.
Qed.

(** C3. [parse_pattern] classifies every slash-delimited token of the
    pattern the way the specification lists: a token [":name"] of length at
    least 2 is a Param named [name]; a token ["{name}"] with non-empty
    [name] is a Param named [name]; ["{}"] is the Static segment ["{}"];
    every other token is a Static segment with the token as its text. The
    classification leaves no choice.

    The tokens are those of the pattern string itself: free of slashes,
    and, joined by single slashes, they give the pattern back without its
    query suffix and its leading and trailing slashes; there is one segment
    per token. Conversely, for any sequence of tokens free of slashes and
    question marks whose first and last are not empty, the pattern made of
    these tokens joined by slashes (bare, or with slashes around it and a
    query suffix after it) compiles to exactly one classified segment per
    token, in order.

    Compilation is total: the result is a plain sequence of segments, and
    the loops of the tokenizer have stopped by themselves (more fuel changes
    nothing). *)
Theorem parse_pattern_classification (pattern : string) :
  Forall2 classified (split_segments pattern) (parse_pattern pattern) /\
  (forall tok s1 s2, classified tok s1 -> classified tok s2 -> s1 = s2) /\
  classified "{}" (mkSegment Static "{}") /\
  (forall p extra, p = trim_leading (strip_query pattern) ->
     trim_trailing (size p + extra) p = trim_slashes (strip_query pattern)) /\
  (forall p extra, p = trim_slashes (strip_query pattern) -> empty p = false ->
     parse_parts (split_loop (size p + extra) p 0 []) [] = parse_pattern pattern) /\
  join (split_segments pattern) = trim_slashes (strip_query pattern) /\
  Forall (fun tok => find "/" tok 0 = None) (split_segments pattern) /\
  length (parse_pattern pattern) = length (split_segments pattern) /\
  (forall parts n k q,
     Forall (fun tok => find "/" tok 0 = None /\ find "?" tok 0 = None) parts ->
     parts !! 0 <> Some "" ->
     last parts <> Some "" ->
     Forall2 classified parts (parse_pattern (join parts)) /\
     Forall2 classified parts
       (parse_pattern (slashes n +:+ join parts +:+ slashes k +:+ "?" +:+ q))) /\
  parse_pattern "/posts/{postId}/comments/:id/{}/x?y=1"
    = [mkSegment Static "posts"; mkSegment Param "postId";
       mkSegment Static "comments"; mkSegment Param "id";
       mkSegment Static "{}"; mkSegment Static "x"].
Proof.
  split; [|split; [|split; [|split; [|split; [|split; [|split; [|split; [|split]]]]]]]].
  - rewrite parse_pattern_map. apply parse_parts_classified.
  - apply classified_deterministic.
  - constructor.
  - intros p extra ->. rewrite trim_slashes_rtrim.
    apply trim_trailing_sufficient. lia.
  - intros p extra Hp Hne. unfold parse_pattern, split_segments.
    cbv zeta. rewrite <- Hp, Hne. by rewrite split_loop_sufficient by lia.
  - apply join_split_segments.
  - eapply Forall_impl; [apply split_segments_parts_free|]. by intros tok [? _].
  - by rewrite parse_pattern_map, length_map.
  - intros parts n k q Hfree Hfirst Hlast. split.
    + rewrite parse_pattern_map, split_segments_join_parts by done.
      apply parse_parts_classified.
    + rewrite parse_pattern_map, split_segments_decorated by done.
      apply parse_parts_classified.
  - reflexivity.
Qed.

End pattern_classification.
